(** * MozDef geomodel: locality state reconciliation

    A shallow embedding of [alerts/geomodel/locality.py] and the
    properties of its reconciliation code.

    Conventions of the embedding:
    - a [datetime] is a naive UTC instant, counted in microseconds from
      [datetime.min] (0001-01-01T00:00:00);
    - a Python [list] of localities is a mutable object: it lives in a
      [Store] and a [State] holds a reference to it, so that the in-place
      writes of [_update] and the sharing of one list by several states
      are visible;
    - the named tuples ([Locality], [State], [Entry], [Update]) are
      immutable and are plain records;
    - the [dict] built by [merge] keeps insertion order, as CPython does;
    - a call either returns, raises, or (for the one loop whose bound is
      not syntactic) runs out of fuel: see [outcome]. *)

From Stdlib Require Import ZArith Lia PrimFloat.
From stdpp Require Import base strings option list functions.

Local Open Scope string_scope.
Local Open Scope list_scope.
Local Open Scope Z_scope.

(** ** Outcomes of a call *)

Inductive exn : Set := TypeError | KeyError | OverflowError.

Inductive outcome (A : Type) : Type :=
  | Returns (a : A)
  | Raises (e : exn)
  | OutOfFuel.
Arguments Returns {A} a.
Arguments Raises {A} e.
Arguments OutOfFuel {A}.

#[global] Instance outcome_ret : MRet outcome := fun _ a => Returns a.
#[global] Instance outcome_bind : MBind outcome := fun _ _ k m =>
  match m with
  | Returns a => k a
  | Raises e => Raises e
  | OutOfFuel => OutOfFuel
  end.

(** ** The data model *)

Definition datetime : Set := Z.

Record Locality : Set := {
  sourceipaddress : string;
  city : string;
  country : string;
  lastaction : datetime;
  latitude : float;
  longitude : float;
  radius : Z
}.

(** Identity of a list object holding localities. *)
Definition ref : Set := nat.

(** The store: what list each reference denotes. *)
Abbreviation Store := (ref → list Locality).

Record State : Set := {
  type_ : string;
  username : string;
  localities : ref
}.

Record Update : Set := {
  state : State;
  did_update : bool
}.

(** ** [_update] *)

(** [loc1.city == loc2.city and loc1.country == loc2.country] *)
Definition same_place (loc1 loc2 : Locality) : bool :=
  bool_decide (city loc1 = city loc2) && bool_decide (country loc1 = country loc2).

(** [new_more_recent or new_ip] *)
Definition should_replace (loc1 loc2 : Locality) : bool :=
  let new_more_recent := lastaction loc2 <? lastaction loc1 in
  let new_ip := negb (bool_decide (sourceipaddress loc1 = sourceipaddress loc2)) in
  new_more_recent || new_ip.

(** The inner [for index, loc2 in enumerate(state.localities)] up to its
    [break]: the list is written only just before the [break], so the
    scan reads one snapshot of it. *)
Fixpoint enumerate_find (loc1 : Locality) (locs : list Locality) (index : nat)
  : option (nat * Locality) :=
  match locs with
  | [] => None
  | loc2 :: rest =>
      if same_place loc1 loc2 then Some (index, loc2)
      else enumerate_find loc1 rest (S index)
  end.

(** The body of the outer loop for one [loc1], on the list object [st]. *)
Definition visit (st : ref) (loc1 : Locality) (h : Store) (did_update : bool)
  : Store * bool :=
  match enumerate_find loc1 (h st) 0%nat with
  | Some (index, loc2) =>
      if should_replace loc1 loc2
      then (<[st := <[index := loc1]> (h st)]> h, true)
      else (h, did_update)
  | None => (<[st := h st ++ [loc1]]> h, true)
  end.

(** The outer [for loc1 in from_evt.localities]: a list iterator keeps an
    index [i] and at each step reads the list object as it is then. *)
Fixpoint for_localities (fuel : nat) (st ev : ref) (i : nat) (h : Store)
    (did_update : bool) : outcome (Store * bool) :=
  match fuel with
  | O => OutOfFuel
  | S fuel' =>
      match h ev !! i with
      | None => Returns (h, did_update)
      | Some loc1 =>
          let '(h', d) := visit st loc1 h did_update in
          for_localities fuel' st ev (S i) h' d
      end
  end.

(** The loop gets one step more than the incoming list has elements when
    the call starts.  That is enough on every store, also when the two
    states share one list object ([for_localities_merge] below): the
    result is never [OutOfFuel]. *)
Definition _update (h : Store) (state from_evt : State) : outcome (Store * Update) :=
  let fuel := S (length (h (localities from_evt))) in
  '(h', did_update) ←
    for_localities fuel (localities state) (localities from_evt) 0%nat h false;
  Returns (h', {| state := state; did_update := did_update |}).

(** ** [merge] *)

(** A Python [dict] keyed by strings, in insertion order. *)
Definition dict (V : Type) : Type := list (string * V).

Fixpoint dict_get {V} (d : dict V) (k : string) : option V :=
  match d with
  | [] => None
  | (k', v) :: d' => if bool_decide (k' = k) then Some v else dict_get d' k
  end.

(** [d[k] = v]: an existing key keeps its place, a new one goes last. *)
Fixpoint dict_set {V} (d : dict V) (k : string) (v : V) : dict V :=
  match d with
  | [] => [(k, v)]
  | (k', v') :: d' =>
      if bool_decide (k' = k) then (k', v) :: d' else (k', v') :: dict_set d' k v
  end.

Definition dict_values {V} (d : dict V) : list V := d.*2.

(** [{state.username: Update(state, False) for state in persisted}],
    one entry after the other. *)
Definition seed_entry (mapped : dict Update) (st : State) : dict Update :=
  dict_set mapped (username st) {| state := st; did_update := false |}.

Definition seed (persisted : list State) : dict Update :=
  fold_left seed_entry persisted [].

Fixpoint for_event_sourced (h : Store) (mapped : dict Update) (event_sourced : list State)
  : outcome (Store * dict Update) :=
  match event_sourced with
  | [] => Returns (h, mapped)
  | new_state :: rest =>
      match dict_get mapped (username new_state) with
      | Some u =>
          let old_state := state u in
          '(h', u') ← _update h old_state new_state;
          for_event_sourced h' (dict_set mapped (username new_state) u') rest
      | None =>
          for_event_sourced h
            (dict_set mapped (username new_state)
               {| state := new_state; did_update := true |})
            rest
      end
  end.

Definition merge (h : Store) (persisted event_sourced : list State)
  : outcome (Store * list Update) :=
  '(h', mapped) ← for_event_sourced h (seed persisted) event_sourced;
  Returns (h', dict_values mapped).

(** ** [remove_outdated] *)

(** The UTC clock, as the readings still to come: [c 0] is the next one. *)
Definition Clock : Type := nat → datetime.

(** A computation that reads the clock and may raise. *)
Definition Timed (A : Type) : Type := Clock → outcome A * Clock.

#[global] Instance timed_ret : MRet Timed := fun _ a c => (Returns a, c).
#[global] Instance timed_bind : MBind Timed := fun _ _ k m c =>
  match m c with
  | (Returns a, c') => k a c'
  | (Raises e, c') => (Raises e, c')
  | (OutOfFuel, c') => (OutOfFuel, c')
  end.

Definition lift {A} (o : outcome A) : Timed A := fun c => (o, c).

(** [datetime.utcnow()] *)
Definition utcnow : Timed datetime := fun c => (Returns (c 0%nat), fun n => c (S n)).

(** A [timedelta], in microseconds. *)
Definition timedelta : Set := Z.

Definition us_per_day : Z := 86400000000.

(** [datetime.max], 9999-12-31T23:59:59.999999: day 3652059 is the last. *)
Definition datetime_max : datetime := 3652059 * us_per_day - 1.

(** [timedelta(days=days)] *)
Definition timedelta_of_days (days : Z) : outcome timedelta :=
  if bool_decide (-999999999 ≤ days ≤ 999999999)
  then Returns (days * us_per_day)
  else Raises OverflowError.

(** [t - d] *)
Definition datetime_sub (t : datetime) (d : timedelta) : outcome datetime :=
  let r := t - d in
  if bool_decide (0 ≤ r ≤ datetime_max) then Returns r else Raises OverflowError.

(** [now - timedelta(days=days_valid)] *)
Definition days_before (now : datetime) (days_valid : Z) : outcome datetime :=
  delta ← timedelta_of_days days_valid;
  datetime_sub now delta.

(** The comprehension evaluates its condition, clock reading included,
    once for each [loc]. *)
Fixpoint remove_outdated (localities : list Locality) (days_valid : Z)
  : Timed (list Locality) :=
  match localities with
  | [] => mret []
  | loc :: rest =>
      now ← utcnow;
      cutoff ← lift (days_before now days_valid);
      kept ← remove_outdated rest days_valid;
      mret (if cutoff <=? lastaction loc then loc :: kept else kept)
  end.

(** ** [find_all] and [to_state] *)

(** What a deserialized document is made of. *)
#[warnings="-register-all"] Inductive value : Set :=
  | VNone
  | VBool (b : bool)
  | VInt (n : Z)
  | VFloat (x : float)
  | VStr (s : string)
  | VList (items : list value)
  | VDict (items : list (string * value)).

(** A named tuple does not check its annotations: built from a document,
    its fields hold whatever the document had. *)
Record LocalityDoc : Set := {
  doc_sourceipaddress : value;
  doc_city : value;
  doc_country : value;
  doc_lastaction : value;
  doc_latitude : value;
  doc_longitude : value;
  doc_radius : value
}.

Record StateDoc : Set := {
  doc_type_ : value;
  doc_username : value;
  doc_localities : list LocalityDoc
}.

Record Entry : Set := {
  identifier : value;
  entry_state : StateDoc
}.

Definition Locality_fields : list string :=
  ["sourceipaddress"; "city"; "country"; "lastaction"; "latitude"; "longitude"; "radius"].

Definition State_fields : list string := ["type_"; "username"; "localities"].

(** [v[key]] for a string [key] *)
Definition subscript (v : value) (key : string) : outcome value :=
  match v with
  | VDict items =>
      match dict_get items key with
      | Some x => Returns x
      | None => Raises KeyError
      end
  | _ => Raises TypeError
  end.

Fixpoint characters (s : string) : list value :=
  match s with
  | EmptyString => []
  | String a s' => VStr (String a EmptyString) :: characters s'
  end.

(** What [for loc in v] goes through. *)
Definition iterate (v : value) : outcome (list value) :=
  match v with
  | VList items => Returns items
  | VDict items => Returns (VStr <$> items.*1)
  | VStr s => Returns (characters s)
  | _ => Raises TypeError
  end.

Fixpoint for_each {A B} (f : A → outcome B) (l : list A) : outcome (list B) :=
  match l with
  | [] => Returns []
  | a :: l' => b ← f a; bs ← for_each f l'; Returns (b :: bs)
  end.

Definition _dict_take (dictionary : value) (keys : list string)
  : outcome (dict value) :=
  for_each (fun key => v ← subscript dictionary key; Returns (key, v)) keys.

Definition kwarg (kw : dict value) (name : string) : outcome value :=
  match dict_get kw name with
  | Some v => Returns v
  | None => Raises TypeError
  end.

(** The constructor [Locality], called with the keyword arguments [kw]. *)
Definition new_Locality (kw : dict value) : outcome LocalityDoc :=
  if forallb (fun k => bool_decide (k ∈ Locality_fields)) kw.*1 then
    a ← kwarg kw "sourceipaddress";
    b ← kwarg kw "city";
    c ← kwarg kw "country";
    d ← kwarg kw "lastaction";
    e ← kwarg kw "latitude";
    f ← kwarg kw "longitude";
    g ← kwarg kw "radius";
    Returns {| doc_sourceipaddress := a; doc_city := b; doc_country := c;
               doc_lastaction := d; doc_latitude := e; doc_longitude := f;
               doc_radius := g |}
  else Raises TypeError.

(** One element of the comprehension: [Locality] called with what
    [_dict_take(loc, Locality._fields)] gives as keyword arguments. *)
Definition to_locality (loc : value) : outcome LocalityDoc :=
  kw ← _dict_take loc Locality_fields;
  new_Locality kw.

(** The [try] block of [to_state].  After [result['localities'] = ...]
    the key [localities] is present, so of [State._fields] only [type_]
    and [username] are looked up in the document as it came. *)
Definition to_state_body (result : value) : outcome StateDoc :=
  locs ← subscript result "localities";
  items ← iterate locs;
  localities ← for_each to_locality items;
  kw ← _dict_take result ["type_"; "username"];
  t ← kwarg kw "type_";
  u ← kwarg kw "username";
  Returns {| doc_type_ := t; doc_username := u; doc_localities := localities |}.

Definition to_state (result : value) : outcome (option StateDoc) :=
  match to_state_body result with
  | Returns st => Returns (Some st)
  | Raises TypeError => Returns None
  | Raises KeyError => Returns None
  | Raises e => Raises e
  | OutOfFuel => OutOfFuel
  end.

(** The loop of [find_all] over [results], what [query_es] returned. *)
Fixpoint for_results (results : list value) (entries : list Entry)
  : outcome (list Entry) :=
  match results with
  | [] => Returns entries
  | result :: rest =>
      source ← subscript result "_source";
      st ← to_state source;
      match st with
      | Some s =>
          id ← subscript result "_id";
          for_results rest (entries ++ [{| identifier := id; entry_state := s |}])
      | None => for_results rest entries
      end
  end.

Definition find_all (results : list value) : outcome (list Entry) :=
  for_results results [].

(** ** The State Merger as the specification words it

    [merge_one] works on values: for each incoming locality [L] it looks
    in the current localities for an [M] with the same (city, country)
    key, replaces it in place when [L] is more recent or comes from
    another address, leaves it otherwise, and appends [L] when there is no
    such [M]. *)

Definition place (loc : Locality) : string * string := (city loc, country loc).

Definition newer_or_moved (L M : Locality) : Prop :=
  lastaction M < lastaction L ∨ sourceipaddress L ≠ sourceipaddress M.

#[global] Instance newer_or_moved_dec L M : Decision (newer_or_moved L M).
Proof. unfold newer_or_moved. apply _. Defined.

Fixpoint spec_merge_locality (L : Locality) (current : list Locality)
  : list Locality * bool :=
  match current with
  | [] => ([L], true)
  | M :: rest =>
      if bool_decide (place M = place L) then
        if bool_decide (newer_or_moved L M) then (L :: rest, true)
        else (M :: rest, false)
      else
        let '(rest', changed) := spec_merge_locality L rest in
        (M :: rest', changed)
  end.

Fixpoint spec_merge_one (current incoming : list Locality) (changed : bool)
  : list Locality * bool :=
  match incoming with
  | [] => (current, changed)
  | L :: incoming' =>
      let '(current', c) := spec_merge_locality L current in
      spec_merge_one current' incoming' (changed || c)
  end.

(** No two localities of a state share a (city, country) pair. *)
Definition unique_places (locs : list Locality) : Prop := NoDup (place <$> locs).

(** ** Sample data

    Instants are microseconds from [datetime.min]; [t0] is some instant
    in 2024. *)

Definition hour : Z := 3600000000.

Definition t0 : datetime := 63840000000000000.

Definition paris (t : datetime) (ip : string) : Locality :=
  {| sourceipaddress := ip; city := "Paris"; country := "FR"; lastaction := t;
     latitude := 48.5; longitude := 2.5; radius := 50 |}.

Definition rome (t : datetime) (ip : string) : Locality :=
  {| sourceipaddress := ip; city := "Rome"; country := "IT"; lastaction := t;
     latitude := 42; longitude := 12.5; radius := 50 |}.

Definition user (name : string) (r : ref) : State :=
  {| type_ := "locality"; username := name; localities := r |}.
Arguments user name%_string r%_nat.

(** List 1 is what is persisted for alice; the other lists are observed. *)
Definition sample_store : Store := fun r =>
  match r with
  | 1%nat => [paris t0 "1.1.1.1"]
  | 2%nat => [paris (t0 + hour) "1.1.1.1"]
  | 3%nat => [paris (t0 + hour) "1.1.1.1"]
  | 4%nat => [rome (t0 + 2 * hour) "2.2.2.2"; rome (t0 + hour) "2.2.2.2"]
  | 5%nat => [rome t0 "2.2.2.2"; paris (t0 - hour) "1.1.1.1"]
  | 8%nat => [paris (t0 - hour) "1.1.1.1"]
  | 9%nat => [rome t0 "2.2.2.2"]
  | _ => []
  end.

(** A mapping that has every key of [keys]. *)
Definition has_keys (keys : list string) (v : value) : Prop :=
  ∃ items, v = VDict items ∧ ∀ k, k ∈ keys → is_Some (dict_get items k).

(** A call that returns, or raises what [to_state] catches. *)
Definition recoverable {A} (o : outcome A) : Prop :=
  match o with
  | Returns _ => True
  | Raises e => e = TypeError ∨ e = KeyError
  | OutOfFuel => False
  end.

(** A search hit with its two keys. *)
Definition hit (id source : value) : value :=
  VDict [("_id", id); ("_source", source)].

Definition locality_doc : value :=
  VDict [("sourceipaddress", VStr "1.1.1.1"); ("city", VStr "Paris");
         ("country", VStr "FR"); ("lastaction", VStr "2024-01-01T00:00:00");
         ("latitude", VFloat 48.5); ("longitude", VFloat 2.5); ("radius", VInt 50)].

(** A well-formed document. *)
Definition alice_doc : value :=
  VDict [("type_", VStr "locality"); ("username", VStr "alice");
         ("localities", VList [locality_doc])].

(** A document with a field too many, a number for a username and a
    string for a radius. *)
Definition odd_doc : value :=
  VDict [("type_", VStr "locality"); ("username", VInt 7);
         ("localities",
          VList [VDict [("sourceipaddress", VStr "1.1.1.1"); ("city", VStr "Paris");
                        ("country", VStr "FR"); ("lastaction", VNone);
                        ("latitude", VFloat 48.5); ("longitude", VFloat 2.5);
                        ("radius", VStr "wide"); ("continent", VStr "EU")]]);
         ("comment", VStr "extra")].

(** A document without a username. *)
Definition nameless_doc : value :=
  VDict [("type_", VStr "locality"); ("localities", VList [locality_doc])].

(** ** [wrap_journal] *)

(** A value of the document that [wrapper] hands to the client: a field
    of the state as it is, or its list of localities, tuples as they
    are ([_asdict] does not go into them). *)
Inductive field : Set :=
  | Field (v : value)
  | Localities (locs : list LocalityDoc).

(** [dict(entry.state._asdict())] *)
Definition document_of (st : StateDoc) : dict field :=
  [("type_", Field (doc_type_ st));
   ("username", Field (doc_username st));
   ("localities", Localities (doc_localities st))].

(** The closure [wrapper] that [wrap_journal] returns.  The client is
    its [save_object], called with [index], [body] and [doc_id]; it acts
    on some world [W] and may raise. *)
Fixpoint wrapper {W : Type}
    (save_object : string → dict field → value → W → outcome unit * W)
    (entries : list Entry) (esindex : string) (w : W) : outcome unit * W :=
  match entries with
  | [] => (Returns (), w)
  | entry :: rest =>
      let document := document_of (entry_state entry) in
      match save_object esindex document (identifier entry) w with
      | (Returns _, w') => wrapper save_object rest esindex w'
      | (Raises e, w') => (Raises e, w')
      | (OutOfFuel, w') => (OutOfFuel, w')
      end
  end.

Definition wrap_journal {W : Type}
    (save_object : string → dict field → value → W → outcome unit * W)
  : list Entry → string → W → outcome unit * W :=
  wrapper save_object.

(** [saves save_object esindex entries w w']: calling the client once for
    each entry, in order, with the index, the entry's document and its
    identifier, every call returns, and the calls lead from [w] to [w']. *)
Inductive saves {W : Type}
    (save_object : string → dict field → value → W → outcome unit * W)
    (esindex : string) : list Entry → W → W → Prop :=
  | saves_nil w : saves save_object esindex [] w w
  | saves_cons entry entries w w1 w2 :
      save_object esindex (document_of (entry_state entry)) (identifier entry) w =
        (Returns (), w1) →
      saves save_object esindex entries w1 w2 →
      saves save_object esindex (entry :: entries) w w2.

(** A client for the examples: it notes the index and identifier of what
    it is given, and refuses an identifier that is neither a string nor
    [None]. *)
Definition noting_client (index : string) (body : dict field) (doc_id : value)
    (log : list (string * value)) : outcome unit * list (string * value) :=
  match doc_id with
  | VStr _ | VNone => (Returns (), log ++ [(index, doc_id)])
  | _ => (Raises TypeError, log)
  end.

Definition entry_doc (id : value) : Entry :=
  {| identifier := id;
     entry_state := {| doc_type_ := VStr "locality"; doc_username := VStr "alice";
                       doc_localities := [] |} |}.

(** * Properties *)

(** ** The merge of one locality *)

Lemma same_place_place loc1 loc2 :
  same_place loc1 loc2 = bool_decide (place loc2 = place loc1).
Proof.
  unfold same_place, place.
  repeat case_bool_decide; simpl; try reflexivity; simplify_eq; congruence.
Qed.

Lemma should_replace_newer_or_moved loc1 loc2 :
  should_replace loc1 loc2 = bool_decide (newer_or_moved loc1 loc2).
Proof.
  unfold should_replace, newer_or_moved.
  destruct (Z.ltb_spec (lastaction loc2) (lastaction loc1));
    repeat case_bool_decide; simpl; try reflexivity.
  all: exfalso; intuition lia.
Qed.

(** The indexed scan and write of the code against the structural merge. *)
Lemma enumerate_find_merge L locs k :
  match enumerate_find L locs k with
  | Some (j, M) =>
      (k ≤ j)%nat ∧ locs !! (j - k)%nat = Some M ∧ place M = place L ∧
      (∀ i M', (i < j - k)%nat → locs !! i = Some M' → place M' ≠ place L) ∧
      spec_merge_locality L locs =
        if should_replace L M then (<[(j - k)%nat := L]> locs, true) else (locs, false)
  | None =>
      (∀ M, M ∈ locs → place M ≠ place L) ∧
      spec_merge_locality L locs = (locs ++ [L], true)
  end.
Proof.
  revert k. induction locs as [|M locs IH]; intros k; simpl.
  - split; [intros M HM; inversion HM | reflexivity].
  - rewrite same_place_place. case_bool_decide as Hp.
    + replace (k - k)%nat with 0%nat by lia. simpl.
      rewrite should_replace_newer_or_moved.
      repeat split; try done; try lia.
      all: try (intros; lia); try (case_bool_decide; reflexivity).
    + specialize (IH (S k)). destruct (enumerate_find L locs (S k)) as [[j M']|].
      * destruct IH as (Hle & Hlk & Hpl & Hbefore & Hm).
        replace (j - k)%nat with (S (j - S k)) by lia. simpl.
        repeat split; try done; try lia.
        -- intros [|i] M'' Hi; simpl; intros Hl.
           ++ by simplify_eq.
           ++ apply (Hbefore i M''); [lia | done].
        -- rewrite Hm. by destruct (should_replace L M').
      * destruct IH as (Hnone & Hm). split.
        -- intros M' HM'. apply elem_of_cons in HM' as [->|HM']; [done | by apply Hnone].
        -- by rewrite Hm.
Qed.

Lemma visit_merge st L h d :
  (visit st L h d).1 st = (spec_merge_locality L (h st)).1 ∧
  (visit st L h d).2 = d || (spec_merge_locality L (h st)).2 ∧
  ∀ r, r ≠ st → (visit st L h d).1 r = h r.
Proof.
  unfold visit. pose proof (enumerate_find_merge L (h st) 0) as Hfind.
  destruct (enumerate_find L (h st) 0) as [[j M]|].
  - destruct Hfind as (_ & _ & _ & _ & ->).
    replace (j - 0)%nat with j by lia.
    destruct (should_replace L M); simpl.
    + rewrite fn_lookup_insert, orb_true_r.
      repeat split. intros r Hr. by rewrite fn_lookup_insert_ne.
    + by rewrite orb_false_r.
  - destruct Hfind as (_ & ->). simpl.
    rewrite fn_lookup_insert, orb_true_r.
    repeat split. intros r Hr. by rewrite fn_lookup_insert_ne.
Qed.

(** Merging a locality into a list in which it already sits leaves it at
    its position, and what follows it as it was: the case of one list
    object shared by both states. *)
Lemma spec_merge_locality_member pre L post :
  ∃ pre', (spec_merge_locality L (pre ++ L :: post)).1 = pre' ++ L :: post ∧
          length pre' = length pre.
Proof.
  induction pre as [|M pre IH]; simpl.
  - rewrite bool_decide_eq_true_2 by done.
    rewrite bool_decide_eq_false_2.
    + by exists [].
    + unfold newer_or_moved. intros [? | ?]; [lia | done].
  - case_bool_decide.
    + case_bool_decide; [by exists (L :: pre) | by exists (M :: pre)].
    + destruct IH as (pre' & Heq & Hlen).
      destruct (spec_merge_locality L (pre ++ L :: post)) as [rest' c].
      simpl in *. subst rest'. exists (M :: pre'). simpl. by rewrite Hlen.
Qed.

(** The loop of [_update] from position [length pre] on: enough fuel
    gives the result of merging what is left of the incoming list. *)
Lemma for_localities_merge st ev rest :
  ∀ pre h d fuel,
    h ev = pre ++ rest →
    (length rest < fuel)%nat →
    ∃ h' d',
      for_localities fuel st ev (length pre) h d = Returns (h', d') ∧
      (h' st, d') = spec_merge_one (h st) rest d ∧
      ∀ r, r ≠ st → h' r = h r.
Proof.
  induction rest as [|L rest IH]; intros pre h d fuel Hev Hfuel;
    (destruct fuel as [|fuel]; [simpl in Hfuel; lia|]); simpl.
  - rewrite Hev, app_nil_r, lookup_ge_None_2 by lia. by exists h, d.
  - rewrite Hev, lookup_app_r, Nat.sub_diag by lia. simpl.
    destruct (visit_merge st L h d) as (Hst & Hd & Hother).
    destruct (visit st L h d) as [h1 d1]. simpl in *.
    assert (∃ pre1, h1 ev = pre1 ++ rest ∧ length pre1 = S (length pre))
      as (pre1 & Hev1 & Hlen1).
    { destruct (decide (ev = st)) as [->|Hne].
      - rewrite Hst, Hev.
        destruct (spec_merge_locality_member pre L rest) as (pre' & -> & Hlen).
        exists (pre' ++ [L]). rewrite <- app_assoc, length_app. simpl. split; [done | lia].
      - rewrite Hother, Hev by done.
        exists (pre ++ [L]). rewrite <- app_assoc, length_app. simpl. split; [done | lia]. }
    destruct (IH pre1 h1 d1 fuel Hev1) as (h' & d' & Hrun & Hres & Hframe).
    { simpl in Hfuel. lia. }
    rewrite Hlen1 in Hrun. exists h', d'. split; [done|]. split.
    + rewrite Hres, Hst, Hd. by destruct (spec_merge_locality L (h st)).
    + intros r Hr. by rewrite Hframe, Hother.
Qed.

(** [_update] returns, on every store and pair of states, with the
    merge of the incoming list into the current one. *)
Lemma _update_merge h state from_evt :
  ∃ h' changed,
    _update h state from_evt =
      Returns (h', {| state := state; did_update := changed |}) ∧
    (h' (localities state), changed) =
      spec_merge_one (h (localities state)) (h (localities from_evt)) false ∧
    ∀ r, r ≠ localities state → h' r = h r.
Proof.
  unfold _update.
  destruct (for_localities_merge (localities state) (localities from_evt)
              (h (localities from_evt)) [] h false
              (S (length (h (localities from_evt)))))
    as (h' & d' & Hrun & Hres & Hframe); [done | lia |].
  cbn [length] in Hrun. cbn zeta. rewrite Hrun. simpl. by exists h', d'.
Qed.

(** The three cases of the merge of one locality. *)
Lemma spec_merge_locality_absent L current :
  (∀ M, M ∈ current → place M ≠ place L) →
  spec_merge_locality L current = (current ++ [L], true).
Proof.
  induction current as [|M current IH]; intros Hno; simpl; [done|].
  rewrite bool_decide_eq_false_2 by (apply Hno; left).
  rewrite IH; [done|]. intros M' HM'. apply Hno. by right.
Qed.

Lemma spec_merge_locality_present L pre M post :
  (∀ M', M' ∈ pre → place M' ≠ place L) →
  place M = place L →
  spec_merge_locality L (pre ++ M :: post) =
    if bool_decide (newer_or_moved L M)
    then (pre ++ L :: post, true)
    else (pre ++ M :: post, false).
Proof.
  induction pre as [|M0 pre IH]; intros Hno Hp; simpl.
  - rewrite bool_decide_eq_true_2 by done. by case_bool_decide.
  - rewrite bool_decide_eq_false_2 by (apply Hno; left).
    rewrite IH; [by case_bool_decide | | done].
    intros M' HM'. apply Hno. by right.
Qed.

Lemma spec_merge_one_changed current incoming :
  (spec_merge_one current incoming true).2 = true.
Proof.
  revert current. induction incoming as [|L incoming IH]; intros current; simpl; [done|].
  destruct (spec_merge_locality L current) as [current' c]. apply IH.
Qed.

(** C1. On every store and pair of states (equal usernames or not)
    [_update] returns the current state with the result of going through
    the incoming localities in the order supplied, each one merged into
    what the previous ones left (first and second part).  For one incoming
    locality [L]: when no current locality has its (city, country) key it
    is appended and the result is marked changed; when [M] is the current
    locality with that key (the first one, should the list have several;
    the only one in a list with unique keys), [M] is replaced by [L], and
    the result marked changed, if and only if [L] is more recent or comes
    from another address, and otherwise the list is exactly as it was and
    [L] contributes no change; a change once marked stays marked. *)
Theorem update_merges_each_incoming_locality h state from_evt :
  (∃ h' changed,
     _update h state from_evt =
       Returns (h', {| state := state; did_update := changed |}) ∧
     (h' (localities state), changed) =
       spec_merge_one (h (localities state)) (h (localities from_evt)) false ∧
     ∀ r, r ≠ localities state → h' r = h r) ∧
  (∀ current L incoming changed,
     spec_merge_one current (L :: incoming) changed =
       spec_merge_one (spec_merge_locality L current).1 incoming
         (changed || (spec_merge_locality L current).2)) ∧
  (∀ L current,
     (∀ M, M ∈ current → place M ≠ place L) →
     spec_merge_locality L current = (current ++ [L], true)) ∧
  (∀ L pre M post,
     (∀ M', M' ∈ pre → place M' ≠ place L) →
     place M = place L →
     (lastaction L > lastaction M ∨ sourceipaddress L ≠ sourceipaddress M →
      spec_merge_locality L (pre ++ M :: post) = (pre ++ L :: post, true)) ∧
     (¬ (lastaction L > lastaction M ∨ sourceipaddress L ≠ sourceipaddress M) →
      spec_merge_locality L (pre ++ M :: post) = (pre ++ M :: post, false))) ∧
  (∀ L pre M post,
     unique_places (pre ++ M :: post) →
     place M = place L →
     (lastaction L > lastaction M ∨ sourceipaddress L ≠ sourceipaddress M →
      spec_merge_locality L (pre ++ M :: post) = (pre ++ L :: post, true)) ∧
     (¬ (lastaction L > lastaction M ∨ sourceipaddress L ≠ sourceipaddress M) →
      spec_merge_locality L (pre ++ M :: post) = (pre ++ M :: post, false))) ∧
  (∀ current incoming, (spec_merge_one current incoming true).2 = true).
Proof.
  assert (∀ L pre M post,
            (∀ M', M' ∈ pre → place M' ≠ place L) →
            place M = place L →
            (lastaction L > lastaction M ∨ sourceipaddress L ≠ sourceipaddress M →
             spec_merge_locality L (pre ++ M :: post) = (pre ++ L :: post, true)) ∧
            (¬ (lastaction L > lastaction M ∨ sourceipaddress L ≠ sourceipaddress M) →
             spec_merge_locality L (pre ++ M :: post) = (pre ++ M :: post, false)))
    as Hpresent.
  { intros L pre M post Hno Hp.
    rewrite (spec_merge_locality_present L pre M post Hno Hp).
    split; intros Hc.
    - rewrite bool_decide_eq_true_2; [done|]. unfold newer_or_moved. intuition lia.
    - rewrite bool_decide_eq_false_2; [done|]. unfold newer_or_moved. intuition lia. }
  split; [apply _update_merge|].
  split; [intros current L incoming changed; simpl;
          by destruct (spec_merge_locality L current)|].
  split; [apply spec_merge_locality_absent|].
  split; [exact Hpresent|].
  split; [|apply spec_merge_one_changed].
  intros L pre M post Hu Hp. apply Hpresent; [|done].
  intros M' HM' Heq. unfold unique_places in Hu.
  rewrite fmap_app, fmap_cons in Hu. apply list.NoDup_app in Hu as (_ & Hdisj & _).
  apply (Hdisj (place M')); [by apply list_elem_of_fmap_2|].
  rewrite Heq, <- Hp. left.
Qed.

(** ** Places are kept *)

Lemma spec_merge_locality_places L current :
  place <$> (spec_merge_locality L current).1 =
    if decide (place L ∈ place <$> current) then place <$> current
    else (place <$> current) ++ [place L].
Proof.
  induction current as [|M current IH].
  - reflexivity.
  - cbn [spec_merge_locality]. rewrite fmap_cons. case_bool_decide as Hp.
    + rewrite decide_True by (rewrite Hp; left).
      case_bool_decide; cbn [fst]; rewrite fmap_cons; congruence.
    + destruct (spec_merge_locality L current) as [rest' c]. cbn [fst] in *.
      rewrite fmap_cons, IH. case_decide as Hin.
      * by rewrite decide_True by (by right).
      * rewrite decide_False; [done|].
        intros [?|?]%elem_of_cons; [congruence | done].
Qed.

Lemma spec_merge_one_places incoming :
  ∀ current changed,
    ∃ added,
      place <$> (spec_merge_one current incoming changed).1 =
        (place <$> current) ++ added ∧
      (unique_places current →
       unique_places (spec_merge_one current incoming changed).1).
Proof.
  unfold unique_places.
  induction incoming as [|L incoming IH]; intros current changed; simpl.
  - exists []. by rewrite app_nil_r.
  - pose proof (spec_merge_locality_places L current) as Hp.
    destruct (spec_merge_locality L current) as [current' c]. simpl in Hp.
    destruct (IH current' (changed || c)) as (added & Heq & Hnd).
    case_decide as Hin.
    + exists added. split; [by rewrite Heq, Hp|].
      intros Hu. apply Hnd. by rewrite Hp.
    + exists (place L :: added). split; [by rewrite Heq, Hp, <- app_assoc|].
      intros Hu. apply Hnd. rewrite Hp.
      apply list.NoDup_app. split; [done|]. split.
      * intros k Hk Hk'. apply list_elem_of_singleton in Hk'. by subst.
      * apply NoDup_singleton.
Qed.

(** C2. When no two current localities share a (city, country) pair,
    [_update] returns, every pair that was present is present in the
    result, the locality at each position of the current list is in the
    result at the same position with the same pair, and no two localities
    of the result share a pair. *)
Theorem update_keeps_places_and_uniqueness h state from_evt :
  unique_places (h (localities state)) →
  ∃ h' changed,
    _update h state from_evt =
      Returns (h', {| state := state; did_update := changed |}) ∧
    (∀ k, k ∈ place <$> h (localities state) →
          k ∈ place <$> h' (localities state)) ∧
    (∀ i M, h (localities state) !! i = Some M →
            ∃ M', h' (localities state) !! i = Some M' ∧ place M' = place M) ∧
    unique_places (h' (localities state)).
Proof.
  intros Hu.
  destruct (_update_merge h state from_evt) as (h' & changed & Hrun & Hres & _).
  destruct (spec_merge_one_places (h (localities from_evt))
              (h (localities state)) false) as (added & Hpl & Hnd).
  rewrite <- Hres in Hpl, Hnd. simpl in Hpl, Hnd.
  exists h', changed. split; [done|]. repeat split.
  - intros k Hk. rewrite Hpl. apply elem_of_app. by left.
  - intros i M Hi.
    assert ((place <$> h' (localities state)) !! i = Some (place M)) as Hi'.
    { rewrite Hpl. apply lookup_app_l_Some. by rewrite list_lookup_fmap, Hi. }
    apply list_lookup_fmap_Some in Hi' as (M' & ? & ?). by exists M'.
  - by apply Hnd.
Qed.

Lemma update_keeps_places_and_uniqueness_witness :
  unique_places (sample_store (localities (user "alice" 1))) ∧
  ∃ h' changed,
    _update sample_store (user "alice" 1) (user "alice" 5) =
      Returns (h', {| state := user "alice" 1; did_update := changed |}) ∧
    (∀ k, k ∈ place <$> sample_store (localities (user "alice" 1)) →
          k ∈ place <$> h' (localities (user "alice" 1))) ∧
    (∀ i M, sample_store (localities (user "alice" 1)) !! i = Some M →
            ∃ M', h' (localities (user "alice" 1)) !! i = Some M' ∧ place M' = place M) ∧
    unique_places (h' (localities (user "alice" 1))).
Proof.
  assert (unique_places (sample_store (localities (user "alice" 1)))) as Hu.
  { unfold unique_places. simpl. apply NoDup_singleton. }
  split; [exact Hu|].
  exact (update_keeps_places_and_uniqueness sample_store (user "alice" 1) (user "alice" 5) Hu).
Defined.

(** ** Usernames play no part in [_update] *)

(** C5, as the code has it.  [_update] compares no usernames: whatever
    the two usernames (and type tags) are, equal or not, it raises
    nothing and returns the current state as it was given, with its list
    holding the merge of the incoming localities into the current ones,
    the flag of that merge, and every other list untouched.  Store and
    flag are the same for all usernames. *)
Theorem update_returns_whatever_the_usernames h current incoming :
  ∃ h' changed,
    (h' current, changed) = spec_merge_one (h current) (h incoming) false ∧
    (∀ r, r ≠ current → h' r = h r) ∧
    ∀ type1 name1 type2 name2,
      _update h {| type_ := type1; username := name1; localities := current |}
                {| type_ := type2; username := name2; localities := incoming |} =
        Returns (h', {| state := {| type_ := type1; username := name1;
                                    localities := current |};
                        did_update := changed |}).
Proof.
  destruct (for_localities_merge current incoming (h incoming) [] h false
              (S (length (h incoming))))
    as (h' & changed & Hrun & Hres & Hframe); [done | lia |].
  change (length (@nil Locality)) with 0%nat in Hrun.
  exists h', changed. split; [exact Hres|]. split; [exact Hframe|].
  intros type1 name1 type2 name2.
  unfold _update. simpl localities. cbn zeta. by rewrite Hrun.
Qed.

(** C5, the claim refuted: merging bob's observed localities into
    alice's state raises nothing and returns a merged state. *)
Lemma update_of_distinct_usernames_returns :
  username (user "alice" 1) ≠ username (user "bob" 4) ∧
  ∃ h',
    _update sample_store (user "alice" 1) (user "bob" 4) =
      Returns (h', {| state := user "alice" 1; did_update := true |}) ∧
    h' 1%nat = [paris t0 "1.1.1.1"; rome (t0 + 2 * hour) "2.2.2.2"].
Proof.
  split; [discriminate|].
  eexists. split; [vm_compute; reflexivity | vm_compute; reflexivity].
Qed.

(** ** Which incoming locality a place ends up with *)

Lemma enumerate_find_other_place L L' current :
  place L' ≠ place L →
  ∀ k, enumerate_find L (spec_merge_locality L' current).1 k =
       enumerate_find L current k.
Proof.
  intros Hne. induction current as [|M current IH]; intros k.
  - simpl. by rewrite same_place_place, bool_decide_eq_false_2.
  - cbn [spec_merge_locality]. case_bool_decide as Hp.
    + assert (same_place L M = false) as HM.
      { rewrite same_place_place. apply bool_decide_eq_false_2. congruence. }
      case_bool_decide; simpl; rewrite HM; [|done].
      by rewrite same_place_place, bool_decide_eq_false_2.
    + specialize (IH (S k)).
      destruct (spec_merge_locality L' current) as [rest' c]. simpl in *.
      by rewrite IH.
Qed.

Lemma enumerate_find_other_places L incoming :
  (∀ L', L' ∈ incoming → place L' ≠ place L) →
  ∀ current changed k,
    enumerate_find L (spec_merge_one current incoming changed).1 k =
    enumerate_find L current k.
Proof.
  induction incoming as [|L' incoming IH]; intros Hne current changed k; simpl; [done|].
  pose proof (enumerate_find_other_place L L' current) as Hstep.
  destruct (spec_merge_locality L' current) as [current' c]. simpl in Hstep.
  rewrite IH by (intros ? ?; apply Hne; by right).
  apply Hstep, Hne. left.
Qed.

Lemma enumerate_find_own_place L current :
  ∀ k, enumerate_find L (spec_merge_locality L current).1 k =
       match enumerate_find L current k with
       | Some (j, M) => Some (j, if should_replace L M then L else M)
       | None => Some ((k + length current)%nat, L)
       end.
Proof.
  assert (same_place L L = true) as Hself.
  { rewrite same_place_place. by apply bool_decide_eq_true_2. }
  induction current as [|M current IH]; intros k.
  - simpl. rewrite Hself. f_equal. f_equal. lia.
  - cbn [spec_merge_locality enumerate_find]. rewrite same_place_place.
    case_bool_decide as Hp.
    + rewrite should_replace_newer_or_moved.
      case_bool_decide; simpl; [by rewrite Hself|].
      by rewrite same_place_place, bool_decide_eq_true_2.
    + specialize (IH (S k)).
      destruct (spec_merge_locality L current) as [rest' c]. simpl in *.
      rewrite same_place_place, bool_decide_eq_false_2 by done.
      rewrite IH. destruct (enumerate_find L current (S k)) as [[j M']|]; [done|].
      f_equal. f_equal. lia.
Qed.

Lemma spec_merge_one_app current pre post changed :
  spec_merge_one current (pre ++ post) changed =
    spec_merge_one (spec_merge_one current pre changed).1 post
                   (spec_merge_one current pre changed).2.
Proof.
  revert current changed. induction pre as [|L pre IH]; intros current changed; simpl; [done|].
  destruct (spec_merge_locality L current) as [current' c]. apply IH.
Qed.

(** C8, as the code has it.  Let [L] be the last incoming locality of
    its (city, country) pair.  After [_update], the locality found under
    that pair is [L] when, once the localities before [L] have been
    merged, the state has no locality of that pair or has one that [L]
    replaces (older, or from another address); otherwise it is the
    locality the state had then, not [L]. *)
Theorem last_incoming_of_a_place_wins_if_it_replaces h state from_evt pre L post :
  h (localities from_evt) = pre ++ L :: post →
  (∀ L', L' ∈ post → place L' ≠ place L) →
  ∃ h' changed j,
    _update h state from_evt =
      Returns (h', {| state := state; did_update := changed |}) ∧
    enumerate_find L (h' (localities state)) 0 =
      Some (j, match enumerate_find L
                       (spec_merge_one (h (localities state)) pre false).1 0 with
               | Some (_, M) => if should_replace L M then L else M
               | None => L
               end).
Proof.
  intros Hev Hpost.
  destruct (_update_merge h state from_evt) as (h' & changed & Hrun & Hres & _).
  exists h', changed.
  assert (h' (localities state) =
            (spec_merge_one (h (localities state)) (h (localities from_evt)) false).1)
    as -> by by rewrite <- Hres.
  rewrite Hev, spec_merge_one_app.
  destruct (spec_merge_one (h (localities state)) pre false) as [mid c] eqn:Hmid.
  cbn [fst snd spec_merge_one].
  pose proof (enumerate_find_own_place L mid 0) as Hown.
  destruct (spec_merge_locality L mid) as [mid' c'] eqn:Hmid'. simpl in Hown.
  rewrite enumerate_find_other_places by done. rewrite Hown.
  destruct (enumerate_find L mid 0) as [[j M]|]; eauto.
Qed.

Lemma last_incoming_of_a_place_wins_if_it_replaces_witness :
  sample_store (localities (user "bob" 4)) =
    [rome (t0 + 2 * hour) "2.2.2.2"] ++ rome (t0 + hour) "2.2.2.2" :: [] ∧
  ∃ h' changed j,
    _update sample_store (user "bob" 6) (user "bob" 4) =
      Returns (h', {| state := user "bob" 6; did_update := changed |}) ∧
    enumerate_find (rome (t0 + hour) "2.2.2.2") (h' (localities (user "bob" 6))) 0 =
      Some (j, match enumerate_find (rome (t0 + hour) "2.2.2.2")
                       (spec_merge_one (sample_store (localities (user "bob" 6)))
                          [rome (t0 + 2 * hour) "2.2.2.2"] false).1 0 with
               | Some (_, M) =>
                   if should_replace (rome (t0 + hour) "2.2.2.2") M
                   then rome (t0 + hour) "2.2.2.2" else M
               | None => rome (t0 + hour) "2.2.2.2"
               end).
Proof.
  split; [reflexivity|].
  apply (last_incoming_of_a_place_wins_if_it_replaces sample_store
           (user "bob" 6) (user "bob" 4)
           [rome (t0 + 2 * hour) "2.2.2.2"] (rome (t0 + hour) "2.2.2.2") []).
  - reflexivity.
  - intros L' HL'. inversion HL'.
Defined.

(** C8, the claim refuted: bob is observed in Rome twice, the later
    observation first.  The last incoming locality of that place is the
    earlier one, and the state ends with the other. *)
Lemma last_duplicate_does_not_win :
  sample_store (localities (user "bob" 4)) =
    [rome (t0 + 2 * hour) "2.2.2.2"; rome (t0 + hour) "2.2.2.2"] ∧
  ∃ h',
    _update sample_store (user "bob" 6) (user "bob" 4) =
      Returns (h', {| state := user "bob" 6; did_update := true |}) ∧
    h' (localities (user "bob" 6)) = [rome (t0 + 2 * hour) "2.2.2.2"] ∧
    rome (t0 + 2 * hour) "2.2.2.2" ≠ rome (t0 + hour) "2.2.2.2".
Proof.
  split; [reflexivity|].
  eexists. split; [vm_compute; reflexivity|].
  split; [vm_compute; reflexivity|]. intros Heq. by inversion Heq.
Qed.

(** ** The dictionary of [merge] *)

Section dict.
Context {V : Type}.
Implicit Types (d : dict V) (k : string) (v : V).

Lemma dict_get_None d k : dict_get d k = None ↔ k ∉ d.*1.
Proof.
  induction d as [|[k' v'] d IH]; simpl.
  - split; [intros _ Hin; inversion Hin | done].
  - case_bool_decide as Hk.
    + split; [done|]. intros Hn. exfalso. apply Hn. subst. left.
    + rewrite IH. split.
      * intros Hn [?|?]%elem_of_cons; [congruence | done].
      * intros Hn Hin. apply Hn. by right.
Qed.

Lemma dict_set_absent d k v : dict_get d k = None → dict_set d k v = d ++ [(k, v)].
Proof.
  induction d as [|[k' v'] d IH]; simpl; [done|].
  case_bool_decide; [done|]. intros Hn. by rewrite IH.
Qed.

Lemma dict_get_set d k v k' :
  dict_get (dict_set d k v) k' = if bool_decide (k = k') then Some v else dict_get d k'.
Proof.
  induction d as [|[k0 v0] d IH]; simpl.
  - done.
  - destruct (bool_decide_reflect (k0 = k)) as [->|Hne]; simpl.
    + by case_bool_decide.
    + rewrite IH. repeat case_bool_decide; congruence.
Qed.

Lemma dict_set_keys d k v :
  (dict_set d k v).*1 = if decide (k ∈ d.*1) then d.*1 else d.*1 ++ [k].
Proof.
  induction d as [|[k0 v0] d IH].
  - reflexivity.
  - cbn [dict_set]. case_bool_decide as Hk.
    + rewrite !fmap_cons. cbn [fst]. subst. by rewrite decide_True by left.
    + rewrite !fmap_cons, IH. cbn [fst]. case_decide as Hin.
      * by rewrite decide_True by (by right).
      * rewrite decide_False; [done|].
        intros [?|?]%elem_of_cons; [congruence | done].
Qed.
End dict.

(** When the usernames are new and distinct, every state gets an entry of
    its own, in order. *)
Lemma seed_entries_distinct persisted :
  ∀ mapped,
    NoDup (username <$> persisted) →
    (∀ name, name ∈ username <$> persisted → name ∉ mapped.*1) →
    fold_left seed_entry persisted mapped =
      mapped ++ ((λ st, (username st, Build_Update st false)) <$> persisted).
Proof.
  induction persisted as [|st persisted IH]; intros mapped Hnd Hnew.
  - simpl. by rewrite app_nil_r.
  - rewrite fmap_cons in Hnd, Hnew. apply list.NoDup_cons in Hnd as [Hst Hnd].
    cbn [fold_left]. unfold seed_entry at 2.
    rewrite dict_set_absent by (apply dict_get_None, Hnew; left).
    rewrite IH, fmap_cons, <- app_assoc; [done | done |].
    intros name Hname. rewrite fmap_app, elem_of_app. intros [Hin | Hin].
    + revert Hin. apply Hnew. by right.
    + apply list_elem_of_singleton in Hin. simpl in Hin. by subst.
Qed.

Lemma for_event_sourced_distinct h event_sourced :
  ∀ mapped,
    NoDup (username <$> event_sourced) →
    (∀ name, name ∈ username <$> event_sourced → name ∉ mapped.*1) →
    for_event_sourced h mapped event_sourced =
      Returns (h, mapped ++ ((λ st, (username st, Build_Update st true)) <$> event_sourced)).
Proof.
  induction event_sourced as [|st event_sourced IH]; intros mapped Hnd Hnew.
  - simpl. by rewrite app_nil_r.
  - rewrite fmap_cons in Hnd, Hnew. apply list.NoDup_cons in Hnd as [Hst Hnd].
    assert (dict_get mapped (username st) = None) as Hget
      by (apply dict_get_None, Hnew; left).
    cbn [for_event_sourced]. rewrite Hget, dict_set_absent by done.
    rewrite IH, fmap_cons, <- app_assoc; [done | done |].
    intros name Hname. rewrite fmap_app, elem_of_app. intros [Hin | Hin].
    + revert Hin. apply Hnew. by right.
    + apply list_elem_of_singleton in Hin. simpl in Hin. by subst.
Qed.

(** C3. When the usernames are distinct within the persisted states,
    within the observed states, and between the two, [merge] returns, on
    a store it has not touched, one result for each input state: as many
    results as states, each username of either input exactly once, every
    observed state marked changed and every persisted state, as it was
    given, marked unchanged. *)
Theorem merge_of_disjoint_usernames h persisted observed :
  NoDup (username <$> persisted) →
  NoDup (username <$> observed) →
  (∀ name, name ∈ username <$> persisted → name ∉ username <$> observed) →
  ∃ out,
    merge h persisted observed = Returns (h, out) ∧
    length out = (length persisted + length observed)%nat ∧
    NoDup (username ∘ state <$> out) ∧
    (∀ name, name ∈ username ∘ state <$> out ↔
             name ∈ username <$> persisted ∨ name ∈ username <$> observed) ∧
    (∀ st, st ∈ observed → {| state := st; did_update := true |} ∈ out) ∧
    (∀ st, st ∈ persisted → {| state := st; did_update := false |} ∈ out).
Proof.
  intros Hp Ho Hdisj.
  exists (((λ st, Build_Update st false) <$> persisted) ++
          ((λ st, Build_Update st true) <$> observed)).
  assert (username ∘ state <$>
            (((λ st, Build_Update st false) <$> persisted) ++
             ((λ st, Build_Update st true) <$> observed)) =
          (username <$> persisted) ++ (username <$> observed)) as Hnames.
  { rewrite fmap_app, <- !list_fmap_compose. done. }
  split; [|split; [|split; [|split; [|split]]]].
  - unfold merge, seed.
    rewrite seed_entries_distinct by (done || intros ? ? Hin; inversion Hin).
    rewrite for_event_sourced_distinct; [| done |].
    + simpl. unfold dict_values.
      by rewrite fmap_app, <- !list_fmap_compose.
    + intros name Hname. simpl. rewrite <- list_fmap_compose. simpl.
      intros Hin. by apply (Hdisj name).
  - by rewrite length_app, !length_fmap.
  - rewrite Hnames. apply list.NoDup_app. repeat split; done.
  - intros name. by rewrite Hnames, elem_of_app.
  - intros st Hst. apply elem_of_app. right.
    by apply (list_elem_of_fmap_2 (λ st, Build_Update st true)).
  - intros st Hst. apply elem_of_app. left.
    by apply (list_elem_of_fmap_2 (λ st, Build_Update st false)).
Qed.

Lemma merge_of_disjoint_usernames_witness :
  NoDup (username <$> [user "alice" 1]) ∧
  NoDup (username <$> [user "bob" 4]) ∧
  (∀ name, name ∈ username <$> [user "alice" 1] →
           name ∉ username <$> [user "bob" 4]) ∧
  ∃ out,
    merge sample_store [user "alice" 1] [user "bob" 4] = Returns (sample_store, out) ∧
    length out = (length [user "alice" 1] + length [user "bob" 4])%nat ∧
    NoDup (username ∘ state <$> out) ∧
    (∀ name, name ∈ username ∘ state <$> out ↔
             name ∈ username <$> [user "alice" 1] ∨
             name ∈ username <$> [user "bob" 4]) ∧
    (∀ st, st ∈ [user "bob" 4] → {| state := st; did_update := true |} ∈ out) ∧
    (∀ st, st ∈ [user "alice" 1] → {| state := st; did_update := false |} ∈ out).
Proof.
  assert (NoDup (username <$> [user "alice" 1])) as Hp by apply NoDup_singleton.
  assert (NoDup (username <$> [user "bob" 4])) as Ho by apply NoDup_singleton.
  assert (∀ name, name ∈ username <$> [user "alice" 1] →
                  name ∉ username <$> [user "bob" 4]) as Hdisj.
  { intros name Hin Hin'. apply list_elem_of_singleton in Hin, Hin'.
    rewrite Hin in Hin'. discriminate. }
  split; [exact Hp|]. split; [exact Ho|]. split; [exact Hdisj|].
  exact (merge_of_disjoint_usernames sample_store [user "alice" 1] [user "bob" 4]
           Hp Ho Hdisj).
Defined.

(** ** The flag of a user observed more than once *)

(** C6, on an input where it fails.  Alice is persisted in Paris at
    [t0] and observed there twice, an hour later.  The first observation
    rewrites her persisted list; the second finds nothing new, and its
    flag replaces the first one: she comes back marked unchanged, with a
    list that is not the persisted one. *)
Theorem merge_marks_a_rewritten_state_unchanged :
  sample_store 1%nat = [paris t0 "1.1.1.1"] ∧
  ∃ h',
    merge sample_store [user "alice" 1] [user "alice" 2; user "alice" 3] =
      Returns (h', [{| state := user "alice" 1; did_update := false |}]) ∧
    h' 1%nat = [paris (t0 + hour) "1.1.1.1"] ∧
    paris (t0 + hour) "1.1.1.1" ≠ paris t0 "1.1.1.1".
Proof.
  split; [reflexivity|].
  eexists. split; [vm_compute; reflexivity|].
  split; [vm_compute; reflexivity|]. intros Heq. by inversion Heq.
Qed.

(** ** Persisted states that share a username *)

Lemma seed_entries_last persisted :
  ∀ mapped name,
    dict_get (fold_left seed_entry persisted mapped) name =
      match list.last (filter (λ st, username st = name) persisted) with
      | Some st => Some (Build_Update st false)
      | None => dict_get mapped name
      end.
Proof.
  induction persisted as [|st persisted IH]; intros mapped name; [done|].
  cbn [fold_left]. rewrite IH, filter_cons. unfold seed_entry.
  rewrite dict_get_set. case_decide as Hname.
  - rewrite last_cons, bool_decide_eq_true_2 by done.
    by destruct (list.last (filter _ persisted)).
  - rewrite bool_decide_eq_false_2 by done.
    by destruct (list.last (filter _ persisted)).
Qed.

Lemma dict_set_length {V} (d : dict V) k v :
  length (dict_set d k v) = if decide (k ∈ d.*1) then length d else S (length d).
Proof.
  rewrite <- (length_fmap fst (dict_set d k v)), dict_set_keys.
  case_decide; rewrite ?length_app, length_fmap; simpl; lia.
Qed.

Lemma seed_entries_keys persisted :
  ∀ mapped name,
    name ∈ (fold_left seed_entry persisted mapped).*1 ↔
    name ∈ mapped.*1 ∨ name ∈ username <$> persisted.
Proof.
  induction persisted as [|st persisted IH]; intros mapped name.
  - simpl. split; [by left | intros [?|Hin]; [done | inversion Hin]].
  - cbn [fold_left]. rewrite IH, fmap_cons, elem_of_cons. unfold seed_entry.
    rewrite dict_set_keys. case_decide as Hin.
    + split; [tauto|]. intros [?|[->|?]]; tauto.
    + rewrite elem_of_app, list_elem_of_singleton. tauto.
Qed.

(** Either the usernames are new and distinct, or some entry is lost. *)
Lemma seed_entries_repeated persisted :
  ∀ mapped,
    (length (fold_left seed_entry persisted mapped) ≤ length mapped + length persisted)%nat ∧
    (NoDup (username <$> persisted) ∧
     (∀ name, name ∈ username <$> persisted → name ∉ mapped.*1) ∨
     (length (fold_left seed_entry persisted mapped) < length mapped + length persisted)%nat).
Proof.
  induction persisted as [|st persisted IH]; intros mapped.
  - simpl. split; [lia|]. left. split; [constructor|]. intros name Hin. inversion Hin.
  - cbn [fold_left length]. destruct (IH (seed_entry mapped st)) as [Hle Hcases].
    pose proof (dict_set_length mapped (username st) (Build_Update st false)) as Hlen.
    fold (seed_entry mapped st) in Hlen. case_decide as Hin.
    + split; [lia|]. right. lia.
    + split; [lia|]. destruct Hcases as [[Hnd Hnew]|Hlt]; [|right; lia].
      left. rewrite fmap_cons. split.
      * apply list.NoDup_cons. split; [|done]. intros Hst.
        apply (Hnew _ Hst). unfold seed_entry. rewrite dict_set_keys, decide_False by done.
        apply elem_of_app. right. by apply list_elem_of_singleton.
      * intros name [->|Hname]%elem_of_cons; [done|].
        intros Hmapped. apply (Hnew _ Hname). unfold seed_entry.
        rewrite dict_set_keys, decide_False by done. apply elem_of_app. by left.
Qed.

(** The loop over the observed states returns, adds at most one entry
    for each of them, and none when every observed username is mapped. *)
Lemma for_event_sourced_returns event_sourced :
  ∀ h mapped,
    ∃ h' mapped',
      for_event_sourced h mapped event_sourced = Returns (h', mapped') ∧
      (length mapped' ≤ length mapped + length event_sourced)%nat ∧
      ((∀ st, st ∈ event_sourced → username st ∈ mapped.*1) →
       mapped'.*1 = mapped.*1).
Proof.
  induction event_sourced as [|new_state event_sourced IH]; intros h mapped.
  - exists h, mapped. simpl. split; [done|]. split; [lia | done].
  - cbn [for_event_sourced length].
    destruct (dict_get mapped (username new_state)) as [u|] eqn:Hget.
    + destruct (_update_merge h (state u) new_state) as (h1 & c & -> & _). simpl.
      assert (username new_state ∈ mapped.*1) as Hin.
      { destruct (decide (username new_state ∈ mapped.*1)) as [|Hn]; [done|].
        apply dict_get_None in Hn. congruence. }
      pose proof (dict_set_length mapped (username new_state)
                    {| state := state u; did_update := c |}) as Hlen.
      pose proof (dict_set_keys mapped (username new_state)
                    {| state := state u; did_update := c |}) as Hkeys.
      rewrite decide_True in Hlen by done. rewrite decide_True in Hkeys by done.
      destruct (IH h1 (dict_set mapped (username new_state)
                         {| state := state u; did_update := c |}))
        as (h' & mapped' & Hrun & Hle & Hsame).
      exists h', mapped'. split; [done|]. split; [lia|].
      intros Hall. rewrite Hsame, Hkeys; [done|].
      intros st Hst. rewrite Hkeys. apply Hall. by right.
    + pose proof (dict_set_length mapped (username new_state)
                    {| state := new_state; did_update := true |}) as Hlen.
      apply dict_get_None in Hget. rewrite decide_False in Hlen by done.
      destruct (IH h (dict_set mapped (username new_state)
                        {| state := new_state; did_update := true |}))
        as (h' & mapped' & Hrun & Hle & _).
      exists h', mapped'. split; [done|]. split; [lia|].
      intros Hall. exfalso. apply Hget, Hall. left.
Qed.

(** C10, as the code has it.  When two persisted states share a
    username, [merge] still returns.  The seeded mapping holds, for each
    username, the last persisted state of that name, marked unchanged, and
    so has fewer entries than there are persisted states.  The output has
    fewer entries than the two inputs together, and fewer than the
    persisted input when every observed username is a persisted one. *)
Theorem merge_of_repeated_persisted_usernames h persisted event_sourced :
  ¬ NoDup (username <$> persisted) →
  (∀ name,
     dict_get (seed persisted) name =
       (λ st, {| state := st; did_update := false |}) <$>
         list.last (filter (λ st, username st = name) persisted)) ∧
  (length (seed persisted) < length persisted)%nat ∧
  ∃ h' out,
    merge h persisted event_sourced = Returns (h', out) ∧
    (length out < length persisted + length event_sourced)%nat ∧
    ((∀ st, st ∈ event_sourced → username st ∈ username <$> persisted) →
     (length out < length persisted)%nat).
Proof.
  intros Hdup.
  assert (length (seed persisted) < length persisted)%nat as Hlt.
  { destruct (seed_entries_repeated persisted []) as [_ [[Hnd _]|Hlt]]; [done|].
    exact Hlt. }
  split; [|split; [exact Hlt|]].
  - intros name. unfold seed. rewrite seed_entries_last.
    by destruct (list.last (filter _ persisted)).
  - destruct (for_event_sourced_returns event_sourced h (seed persisted))
      as (h' & mapped' & Hrun & Hle & Hsame).
    exists h', (dict_values mapped'). unfold merge. rewrite Hrun. simpl.
    split; [done|]. unfold dict_values. rewrite length_fmap. split; [lia|].
    intros Hall. rewrite <- (length_fmap fst mapped'), Hsame, length_fmap; [done|].
    intros st Hst. unfold seed. apply seed_entries_keys. right. by apply Hall.
Qed.

Lemma merge_of_repeated_persisted_usernames_witness :
  ¬ NoDup (username <$> [user "alice" 1; user "alice" 7]) ∧
  (∀ name,
     dict_get (seed [user "alice" 1; user "alice" 7]) name =
       (λ st, {| state := st; did_update := false |}) <$>
         list.last (filter (λ st, username st = name) [user "alice" 1; user "alice" 7])) ∧
  (length (seed [user "alice" 1; user "alice" 7]) <
   length [user "alice" 1; user "alice" 7])%nat ∧
  ∃ h' out,
    merge sample_store [user "alice" 1; user "alice" 7] [user "alice" 2] =
      Returns (h', out) ∧
    (length out < length [user "alice" 1; user "alice" 7] + length [user "alice" 2])%nat ∧
    ((∀ st, st ∈ [user "alice" 2] →
            username st ∈ username <$> [user "alice" 1; user "alice" 7]) →
     (length out < length [user "alice" 1; user "alice" 7])%nat).
Proof.
  assert (¬ NoDup (username <$> [user "alice" 1; user "alice" 7])) as Hdup.
  { intros Hnd. apply list.NoDup_cons in Hnd as [Hn _]. apply Hn. left. }
  split; [exact Hdup|].
  exact (merge_of_repeated_persisted_usernames sample_store
           [user "alice" 1; user "alice" 7] [user "alice" 2] Hdup).
Defined.

(** C10, the claim refuted: with alice persisted twice and two users
    seen for the first time, the output has three entries, not fewer than
    the two persisted states. *)
Lemma merge_output_not_shorter_than_persisted :
  ¬ NoDup (username <$> [user "alice" 1; user "alice" 7]) ∧
  ∃ h',
    merge sample_store [user "alice" 1; user "alice" 7]
                       [user "bob" 4; user "carol" 5] =
      Returns (h', [ {| state := user "alice" 7; did_update := false |};
                     {| state := user "bob" 4; did_update := true |};
                     {| state := user "carol" 5; did_update := true |} ]) ∧
    (length [user "alice" 1; user "alice" 7] <
     length [ {| state := user "alice" 7; did_update := false |};
              {| state := user "bob" 4; did_update := true |};
              {| state := user "carol" 5; did_update := true |} ])%nat.
Proof.
  split.
  - intros Hnd. apply list.NoDup_cons in Hnd as [Hn _]. apply Hn. left.
  - eexists. split; [vm_compute; reflexivity | simpl; lia].
Qed.

(** ** [remove_outdated] and the clock *)

(** The cutoff the comprehension computes from one reading [now]. *)
Lemma remove_outdated_cons loc rest days_valid c :
  remove_outdated (loc :: rest) days_valid c =
    match days_before (c 0%nat) days_valid with
    | Returns cutoff =>
        match remove_outdated rest days_valid (λ n, c (S n)) with
        | (Returns kept, c') =>
            (Returns (if cutoff <=? lastaction loc then loc :: kept else kept), c')
        | (Raises e, c') => (Raises e, c')
        | (OutOfFuel, c') => (OutOfFuel, c')
        end
    | Raises e => (Raises e, λ n, c (S n))
    | OutOfFuel => (OutOfFuel, λ n, c (S n))
    end.
Proof.
  cbn [remove_outdated]. unfold mbind at 1, timed_bind, utcnow.
  unfold mbind at 1, timed_bind, lift.
  destruct (days_before (c 0%nat) days_valid) as [cutoff| |]; done.
Qed.

(** With a clock that stands still, every locality is held against the
    same cutoff, and the clock is left standing. *)
Lemma remove_outdated_still_clock localities days_valid now :
  ∀ c,
    (∀ n, c n = now) →
    (remove_outdated localities days_valid c).1 =
      match localities with
      | [] => Returns []
      | _ :: _ =>
          cutoff ← days_before now days_valid;
          Returns (filter (λ loc, cutoff ≤ lastaction loc) localities)
      end ∧
    ∀ n, (remove_outdated localities days_valid c).2 n = now.
Proof.
  induction localities as [|loc rest IH]; intros c Hc.
  - split; [done | apply Hc].
  - rewrite remove_outdated_cons, Hc.
    destruct (days_before now days_valid) as [cutoff| |];
      simpl; [|split; [done | intros n; apply Hc]..].
    destruct (IH (λ n, c (S n))) as [Hres Hclock]; [intros n; apply Hc|].
    destruct (remove_outdated rest days_valid (λ n, c (S n))) as [[kept| |] c'];
      simpl in *.
    + split; [|done]. rewrite filter_cons.
      assert (kept = filter (λ loc0, cutoff ≤ lastaction loc0) rest) as ->.
      { destruct rest; simpl in Hres; by simplify_eq. }
      destruct (Z.leb_spec cutoff (lastaction loc)).
      * by rewrite decide_True.
      * by rewrite decide_False by lia.
    + destruct rest; simpl in Hres; discriminate.
    + destruct rest; simpl in Hres; discriminate.
Qed.

(** The result depends on the clock through its readings only. *)
Lemma remove_outdated_same_readings localities days_valid :
  ∀ c c',
    (∀ n, c' n = c n) →
    (remove_outdated localities days_valid c').1 =
    (remove_outdated localities days_valid c).1.
Proof.
  induction localities as [|loc rest IH]; intros c c' Hc; [done|].
  rewrite !remove_outdated_cons, Hc.
  destruct (days_before (c 0%nat) days_valid) as [cutoff| |];
    [|done..].
  specialize (IH (λ n, c (S n)) (λ n, c' (S n)) (λ n, Hc (S n))).
  destruct (remove_outdated rest days_valid (λ n, c (S n))) as [[kept| |] c1],
           (remove_outdated rest days_valid (λ n, c' (S n))) as [[kept'| |] c1'];
    simpl in *; simplify_eq; done.
Qed.

(** A number of days that leads from one [datetime] to another is one
    that [timedelta] accepts. *)
Lemma days_valid_in_range now days_valid :
  0 ≤ now ≤ datetime_max →
  0 ≤ now - days_valid * us_per_day ≤ datetime_max →
  -999999999 ≤ days_valid ≤ 999999999.
Proof.
  unfold datetime_max. intros Hnow Hcut.
  assert (0 < us_per_day) as Hpos by reflexivity.
  assert (days_valid * us_per_day < 3652059 * us_per_day) as Hup by lia.
  assert (-3652059 * us_per_day < days_valid * us_per_day) as Hdown by lia.
  apply Z.mul_lt_mono_pos_r in Hup, Hdown; [lia | done..].
Qed.

(** C4, as the code has it.  [remove_outdated] has two parameters and
    reads the clock itself.  When the clock reads [now] throughout, and
    [now] less [days_valid] days is a [datetime], it returns exactly the
    localities whose [lastaction] is at or after that instant, in their
    order; and two calls with the same arguments return the same when the
    clock reads the same. *)
Theorem remove_outdated_keeps_recent_by_the_clock localities days_valid c now :
  (∀ n, c n = now) →
  0 ≤ now ≤ datetime_max →
  0 ≤ now - days_valid * us_per_day ≤ datetime_max →
  (remove_outdated localities days_valid c).1 =
    Returns (filter (λ loc, now - days_valid * us_per_day ≤ lastaction loc) localities) ∧
  ∀ c', (∀ n, c' n = c n) →
        (remove_outdated localities days_valid c').1 =
        (remove_outdated localities days_valid c).1.
Proof.
  intros Hc Hnow Hcut. split; [|apply remove_outdated_same_readings].
  destruct (remove_outdated_still_clock localities days_valid now c Hc) as [-> _].
  destruct localities as [|loc rest]; [done|].
  unfold days_before, timedelta_of_days, datetime_sub.
  rewrite bool_decide_eq_true_2.
  - cbn [mbind outcome_bind]. rewrite bool_decide_eq_true_2 by done. reflexivity.
  - apply (days_valid_in_range now); done.
Qed.

Lemma remove_outdated_keeps_recent_by_the_clock_witness :
  (∀ n : nat, (λ _ : nat, t0 + 40 * us_per_day) n = t0 + 40 * us_per_day) ∧
  0 ≤ t0 + 40 * us_per_day ≤ datetime_max ∧
  0 ≤ t0 + 40 * us_per_day - 30 * us_per_day ≤ datetime_max ∧
  (remove_outdated [paris t0 "1.1.1.1"; rome (t0 + 20 * us_per_day) "2.2.2.2"] 30
     (λ _, t0 + 40 * us_per_day)).1 =
    Returns (filter (λ loc, t0 + 40 * us_per_day - 30 * us_per_day ≤ lastaction loc)
               [paris t0 "1.1.1.1"; rome (t0 + 20 * us_per_day) "2.2.2.2"]) ∧
  ∀ c', (∀ n, c' n = (λ _ : nat, t0 + 40 * us_per_day) n) →
        (remove_outdated [paris t0 "1.1.1.1"; rome (t0 + 20 * us_per_day) "2.2.2.2"] 30 c').1 =
        (remove_outdated [paris t0 "1.1.1.1"; rome (t0 + 20 * us_per_day) "2.2.2.2"] 30
           (λ _, t0 + 40 * us_per_day)).1.
Proof.
  assert (0 ≤ t0 + 40 * us_per_day ≤ datetime_max) as Hnow by (vm_compute; split; discriminate).
  assert (0 ≤ t0 + 40 * us_per_day - 30 * us_per_day ≤ datetime_max) as Hcut
    by (vm_compute; split; discriminate).
  split; [intros n; reflexivity|]. split; [exact Hnow|]. split; [exact Hcut|].
  exact (remove_outdated_keeps_recent_by_the_clock
           [paris t0 "1.1.1.1"; rome (t0 + 20 * us_per_day) "2.2.2.2"] 30
           (λ _, t0 + 40 * us_per_day) (t0 + 40 * us_per_day)
           (λ n, eq_refl) Hnow Hcut).
Defined.

(** C4, the claim refuted: the same list and the same number of days,
    forty days apart on the clock, give two different results. *)
Lemma remove_outdated_depends_on_the_clock :
  (remove_outdated [paris t0 "1.1.1.1"] 30 (λ _, t0)).1 =
    Returns [paris t0 "1.1.1.1"] ∧
  (remove_outdated [paris t0 "1.1.1.1"] 30 (λ _, t0 + 40 * us_per_day)).1 =
    Returns [].
Proof. split; vm_compute; reflexivity. Qed.

(** C7. With a clock that reads [now] throughout, filtering what a
    first call returned gives what the first call gave: the same list,
    or the same error. *)
Theorem remove_outdated_twice_is_once localities days_valid c now :
  (∀ n, c n = now) →
  ((kept ← remove_outdated localities days_valid;
    remove_outdated kept days_valid) c).1 =
  (remove_outdated localities days_valid c).1.
Proof.
  intros Hc. unfold mbind, timed_bind.
  destruct (remove_outdated_still_clock localities days_valid now c Hc)
    as [Hres Hclock].
  destruct (remove_outdated localities days_valid c) as [[kept| |] c1];
    simpl in *; [|done..].
  destruct (remove_outdated_still_clock kept days_valid now c1 Hclock) as [-> _].
  destruct localities as [|loc rest]; [by simplify_eq|].
  destruct (days_before now days_valid) as [cutoff| |];
    simpl in Hres; [|discriminate..].
  simplify_eq. simpl.
  destruct (filter _ (loc :: rest)) as [|loc' kept'] eqn:Hkept; [done|].
  rewrite <- Hkept. f_equal. rewrite list_filter_filter.
  apply list_filter_iff. tauto.
Qed.

Lemma remove_outdated_twice_is_once_witness :
  (∀ n : nat, (λ _ : nat, t0 + 40 * us_per_day) n = t0 + 40 * us_per_day) ∧
  ((kept ← remove_outdated [paris t0 "1.1.1.1"; rome (t0 + 20 * us_per_day) "2.2.2.2"] 30;
    remove_outdated kept 30) (λ _, t0 + 40 * us_per_day)).1 =
  (remove_outdated [paris t0 "1.1.1.1"; rome (t0 + 20 * us_per_day) "2.2.2.2"] 30
     (λ _, t0 + 40 * us_per_day)).1.
Proof.
  split; [intros n; reflexivity|].
  exact (remove_outdated_twice_is_once
           [paris t0 "1.1.1.1"; rome (t0 + 20 * us_per_day) "2.2.2.2"] 30
           (λ _, t0 + 40 * us_per_day) (t0 + 40 * us_per_day) (λ n, eq_refl)).
Defined.

(** ** Reading documents *)

Lemma bind_returns {A B} (m : outcome A) (k : A → outcome B) b :
  m ≫= k = Returns b → ∃ a, m = Returns a ∧ k a = Returns b.
Proof. destruct m as [a| |]; simpl; [by exists a | done..]. Qed.

Lemma bind_recoverable {A B} (m : outcome A) (k : A → outcome B) :
  recoverable m → (∀ a, recoverable (k a)) → recoverable (m ≫= k).
Proof. destruct m; simpl; auto. Qed.

Lemma subscript_recoverable v key : recoverable (subscript v key).
Proof.
  destruct v as [| | | | | |items]; simpl; auto.
  destruct (dict_get items key); simpl; auto.
Qed.

Lemma iterate_recoverable v : recoverable (iterate v).
Proof. destruct v; simpl; auto. Qed.

Lemma kwarg_recoverable kw name : recoverable (kwarg kw name).
Proof. unfold kwarg. destruct (dict_get kw name); simpl; auto. Qed.

Lemma for_each_recoverable {A B} (f : A → outcome B) l :
  (∀ a, recoverable (f a)) → recoverable (for_each f l).
Proof.
  intros Hf. induction l as [|a l IH]; simpl; [done|].
  apply bind_recoverable; [done|]. intros b.
  apply bind_recoverable; [done|]. by intros bs.
Qed.

Lemma _dict_take_recoverable v keys : recoverable (_dict_take v keys).
Proof.
  apply for_each_recoverable. intros key.
  apply bind_recoverable; [apply subscript_recoverable | by intros].
Qed.

Lemma new_Locality_recoverable kw : recoverable (new_Locality kw).
Proof.
  unfold new_Locality. destruct (forallb _ _); [|simpl; auto].
  repeat (apply bind_recoverable; [apply kwarg_recoverable | intros ?]). done.
Qed.

Lemma to_state_body_recoverable result : recoverable (to_state_body result).
Proof.
  unfold to_state_body.
  apply bind_recoverable; [apply subscript_recoverable | intros locs].
  apply bind_recoverable; [apply iterate_recoverable | intros items].
  apply bind_recoverable; [|intros localities].
  { apply for_each_recoverable. intros loc.
    apply bind_recoverable; [apply _dict_take_recoverable | intros kw].
    apply new_Locality_recoverable. }
  apply bind_recoverable; [apply _dict_take_recoverable | intros kw].
  repeat (apply bind_recoverable; [apply kwarg_recoverable | intros ?]). done.
Qed.

(** [to_state] never raises: it returns the state, or [None]. *)
Lemma to_state_returns result :
  to_state result =
    Returns (match to_state_body result with Returns st => Some st | _ => None end).
Proof.
  unfold to_state. pose proof (to_state_body_recoverable result) as Hr.
  destruct (to_state_body result) as [st|e|]; simpl in Hr; [done | | done].
  by destruct Hr as [-> | ->].
Qed.

Lemma for_each_returns {A B} (f : A → outcome B) l bs :
  for_each f l = Returns bs → Forall2 (λ a b, f a = Returns b) l bs.
Proof.
  revert bs. induction l as [|a l IH]; intros bs; simpl.
  - intros [= <-]. constructor.
  - intros (b & Hb & Hrest)%bind_returns.
    apply bind_returns in Hrest as (bs' & Hbs' & [= <-]).
    constructor; [done | by apply IH].
Qed.

Lemma for_each_of_returns {A B} (f : A → outcome B) l bs :
  Forall2 (λ a b, f a = Returns b) l bs → for_each f l = Returns bs.
Proof.
  induction 1 as [|a b l bs Hab _ IH]; simpl; [done|]. by rewrite Hab, IH.
Qed.

Lemma _dict_take_returns v keys kw :
  keys ≠ [] → _dict_take v keys = Returns kw → has_keys keys v.
Proof.
  intros Hkeys Htake. apply for_each_returns in Htake.
  destruct v as [| | | | | |items];
    try (destruct Htake as [|key p keys kw Hkey _]; [done | by simpl in Hkey]).
  exists items. split; [done|]. intros k Hk.
  apply list_elem_of_lookup in Hk as [i Hi].
  destruct (Forall2_lookup_l _ _ _ _ _ Htake Hi) as (p & _ & Hp).
  simpl in Hp. by destruct (dict_get items k).
Qed.

(** A locality document with the seven fields gives a [Locality] that
    holds their values as they are. *)
Lemma locality_of_document items a b c d e f g :
  dict_get items "sourceipaddress" = Some a →
  dict_get items "city" = Some b →
  dict_get items "country" = Some c →
  dict_get items "lastaction" = Some d →
  dict_get items "latitude" = Some e →
  dict_get items "longitude" = Some f →
  dict_get items "radius" = Some g →
  to_locality (VDict items) =
    Returns {| doc_sourceipaddress := a; doc_city := b; doc_country := c;
               doc_lastaction := d; doc_latitude := e; doc_longitude := f;
               doc_radius := g |}.
Proof.
  intros Ha Hb Hc Hd He Hf Hg.
  unfold to_locality, _dict_take, Locality_fields. cbn [for_each subscript].
  rewrite Ha, Hb, Hc, Hd, He, Hf, Hg. reflexivity.
Qed.

Ltac in_fields := apply (bool_decide_unpack _); vm_compute; exact I.

Lemma locality_of_keys loc :
  has_keys Locality_fields loc →
  ∃ l, to_locality loc = Returns l ∧
       subscript loc "sourceipaddress" = Returns (doc_sourceipaddress l) ∧
       subscript loc "city" = Returns (doc_city l) ∧
       subscript loc "country" = Returns (doc_country l) ∧
       subscript loc "lastaction" = Returns (doc_lastaction l) ∧
       subscript loc "latitude" = Returns (doc_latitude l) ∧
       subscript loc "longitude" = Returns (doc_longitude l) ∧
       subscript loc "radius" = Returns (doc_radius l).
Proof.
  intros (items & -> & Hkeys).
  destruct (Hkeys "sourceipaddress") as [a Ha]; [in_fields|].
  destruct (Hkeys "city") as [b Hb]; [in_fields|].
  destruct (Hkeys "country") as [c Hc]; [in_fields|].
  destruct (Hkeys "lastaction") as [d Hd]; [in_fields|].
  destruct (Hkeys "latitude") as [e He]; [in_fields|].
  destruct (Hkeys "longitude") as [f Hf]; [in_fields|].
  destruct (Hkeys "radius") as [g Hg]; [in_fields|].
  eexists. split; [by apply locality_of_document|].
  simpl. by rewrite Ha, Hb, Hc, Hd, He, Hf, Hg.
Qed.

Lemma to_state_body_returns result st :
  to_state_body result = Returns st →
  has_keys State_fields result ∧
  ∀ items locs,
    result = VDict items → dict_get items "localities" = Some (VList locs) →
    Forall (has_keys Locality_fields) locs.
Proof.
  unfold to_state_body.
  intros (locs & Hlocs & Hrest)%bind_returns.
  apply bind_returns in Hrest as (elements & Helements & Hrest).
  apply bind_returns in Hrest as (ls & Hls & Hrest).
  apply bind_returns in Hrest as (kw & Hkw & _).
  apply _dict_take_returns in Hkw as (items & -> & Hkeys); [|done].
  cbn [subscript] in Hlocs.
  destruct (dict_get items "localities") as [v|] eqn:Hget; [|done].
  simplify_eq. split.
  - exists items. split; [done|]. intros k Hk. unfold State_fields in Hk.
    apply elem_of_cons in Hk as [->|Hk]; [apply Hkeys; in_fields|].
    apply elem_of_cons in Hk as [->|Hk]; [apply Hkeys; in_fields|].
    apply list_elem_of_singleton in Hk as ->. by rewrite Hget.
  - intros items' locs' [= <-] Hget'. rewrite Hget in Hget'.
    injection Hget' as ->. cbn [iterate] in Helements. injection Helements as <-.
    apply for_each_returns in Hls.
    apply list.Forall_forall. intros loc Hloc.
    apply list_elem_of_lookup in Hloc as [i Hi].
    destruct (Forall2_lookup_l _ _ _ _ _ Hls Hi) as (l & _ & Hl).
    apply bind_returns in Hl as (kw' & Hkw' & _).
    by apply _dict_take_returns in Hkw'.
Qed.

Lemma to_state_accepts items t u locs :
  dict_get items "type_" = Some t →
  dict_get items "username" = Some u →
  dict_get items "localities" = Some (VList locs) →
  Forall (has_keys Locality_fields) locs →
  ∃ ls,
    to_state (VDict items) =
      Returns (Some {| doc_type_ := t; doc_username := u; doc_localities := ls |}) ∧
    Forall2 (λ loc l, to_locality loc = Returns l) locs ls.
Proof.
  intros Ht Hu Hlocs Hall.
  assert (∃ ls, Forall2 (λ loc l, to_locality loc = Returns l) locs ls) as [ls Hls].
  { clear Hlocs. induction Hall as [|loc locs Hloc _ IH]; [by exists []|].
    destruct IH as [ls IH].
    destruct (locality_of_keys loc Hloc) as (l & Hl & _).
    exists (l :: ls). by constructor. }
  exists ls. split; [|done].
  rewrite to_state_returns. unfold to_state_body.
  cbn [subscript]. rewrite Hlocs. cbn [mbind outcome_bind iterate].
  rewrite (for_each_of_returns _ _ _ Hls).
  unfold _dict_take. cbn [mbind outcome_bind for_each subscript].
  rewrite Ht, Hu. reflexivity.
Qed.

Lemma for_results_from results :
  ∀ entries,
    for_results results entries =
      found ← for_results results []; Returns (entries ++ found).
Proof.
  induction results as [|result results IH]; intros entries.
  - simpl. by rewrite app_nil_r.
  - cbn [for_results].
    destruct (subscript result "_source") as [source| |]; [|done..].
    cbn [mbind outcome_bind].
    destruct (to_state source) as [[st|]| |]; cbn [mbind outcome_bind]; [| |done..].
    + destruct (subscript result "_id") as [id| |]; [|done..].
      cbn [mbind outcome_bind]. rewrite (IH (entries ++ _)), (IH ([] ++ _)).
      destruct (for_results results []) as [found| |]; [|done..].
      cbn [mbind outcome_bind]. by rewrite <- !app_assoc.
    + apply IH.
Qed.

Lemma find_all_app results1 results2 :
  find_all (results1 ++ results2) =
    entries1 ← find_all results1;
    entries2 ← find_all results2;
    Returns (entries1 ++ entries2).
Proof.
  unfold find_all.
  assert (∀ entries,
            for_results (results1 ++ results2) entries =
              for_results results1 entries ≫= for_results results2) as Hsplit.
  { induction results1 as [|result results1 IH]; intros entries; [done|].
    cbn [app for_results].
    destruct (subscript result "_source") as [source| |]; [|done..].
    cbn [mbind outcome_bind].
    destruct (to_state source) as [[st|]| |]; cbn [mbind outcome_bind]; [| |done..].
    - destruct (subscript result "_id") as [id| |]; [|done..].
      cbn [mbind outcome_bind]. apply IH.
    - apply IH. }
  rewrite Hsplit.
  destruct (for_results results1 []) as [entries1| |]; [|done..].
  cbn [mbind outcome_bind]. apply for_results_from.
Qed.

Lemma find_all_one items id source :
  dict_get items "_source" = Some source →
  dict_get items "_id" = Some id →
  find_all [VDict items] =
    match to_state_body source with
    | Returns st => Returns [{| identifier := id; entry_state := st |}]
    | _ => Returns []
    end.
Proof.
  intros Hsource Hid. unfold find_all. cbn [for_results subscript].
  rewrite Hsource, Hid. cbn [mbind outcome_bind]. rewrite to_state_returns.
  cbn [mbind outcome_bind]. by destruct (to_state_body source).
Qed.

Lemma find_all_returns results :
  Forall (has_keys ["_source"; "_id"]) results →
  ∃ entries, find_all results = Returns entries.
Proof.
  induction 1 as [|result results (items & -> & Hkeys) _ IH].
  - by exists [].
  - destruct IH as [entries IH].
    destruct (Hkeys "_source") as [source Hsource]; [in_fields|].
    destruct (Hkeys "_id") as [id Hid]; [in_fields|].
    change (VDict items :: results) with ([VDict items] ++ results).
    rewrite find_all_app, (find_all_one items id source), IH by done.
    destruct (to_state_body source); cbn [mbind outcome_bind]; eauto.
Qed.

(** C9, as the code has it.  [to_state] raises nothing; it gives [None]
    for a record that is not a mapping with [type_], [username] and
    [localities], and for one with a locality that is not a mapping with
    the seven fields; any other record (with a list of localities) it
    accepts, whatever else it carries and whatever its values are, which
    it keeps as they are.  On hits that carry [_source] and [_id],
    [find_all] returns; a hit whose record [to_state] turns down counts
    for nothing in the result, and a hit whose record it accepts gives
    its entry, between those of the hits before and after. *)
Theorem to_state_checks_presence_and_find_all_skips :
  (∀ result, ∃ o, to_state result = Returns o) ∧
  (∀ result, ¬ has_keys State_fields result → to_state result = Returns None) ∧
  (∀ items locs loc,
     dict_get items "localities" = Some (VList locs) →
     loc ∈ locs → ¬ has_keys Locality_fields loc →
     to_state (VDict items) = Returns None) ∧
  (∀ items t u locs,
     dict_get items "type_" = Some t →
     dict_get items "username" = Some u →
     dict_get items "localities" = Some (VList locs) →
     Forall (has_keys Locality_fields) locs →
     ∃ ls,
       to_state (VDict items) =
         Returns (Some {| doc_type_ := t; doc_username := u; doc_localities := ls |}) ∧
       Forall2 (λ loc l,
                  subscript loc "sourceipaddress" = Returns (doc_sourceipaddress l) ∧
                  subscript loc "city" = Returns (doc_city l) ∧
                  subscript loc "country" = Returns (doc_country l) ∧
                  subscript loc "lastaction" = Returns (doc_lastaction l) ∧
                  subscript loc "latitude" = Returns (doc_latitude l) ∧
                  subscript loc "longitude" = Returns (doc_longitude l) ∧
                  subscript loc "radius" = Returns (doc_radius l)) locs ls) ∧
  (∀ results,
     Forall (has_keys ["_source"; "_id"]) results →
     ∃ entries, find_all results = Returns entries) ∧
  (∀ before items source after,
     dict_get items "_source" = Some source →
     to_state source = Returns None →
     find_all (before ++ VDict items :: after) = find_all (before ++ after)) ∧
  (∀ before items id source after st entries1 entries2,
     dict_get items "_source" = Some source →
     dict_get items "_id" = Some id →
     to_state source = Returns (Some st) →
     find_all before = Returns entries1 →
     find_all after = Returns entries2 →
     find_all (before ++ VDict items :: after) =
       Returns (entries1 ++ {| identifier := id; entry_state := st |} :: entries2)).
Proof.
  split; [|split; [|split; [|split; [|split; [|split]]]]].
  - intros result. rewrite to_state_returns. eauto.
  - intros result Hno. rewrite to_state_returns.
    destruct (to_state_body result) as [st| |] eqn:Hbody; [|done..].
    destruct Hno. by apply (to_state_body_returns result st).
  - intros items locs loc Hlocs Hloc Hno. rewrite to_state_returns.
    destruct (to_state_body (VDict items)) as [st| |] eqn:Hbody; [|done..].
    destruct Hno.
    destruct (to_state_body_returns _ _ Hbody) as [_ Hall].
    specialize (Hall items locs eq_refl Hlocs).
    by apply (proj1 (list.Forall_forall _ _) Hall).
  - intros items t u locs Ht Hu Hlocs Hall.
    destruct (to_state_accepts items t u locs Ht Hu Hlocs Hall) as (ls & Hrun & Hls).
    exists ls. split; [done|].
    clear Hrun Hlocs Hall.
    induction Hls as [|loc l locs ls Hl _ IH]; constructor; [|done].
    assert (has_keys Locality_fields loc) as Hkeys.
    { apply bind_returns in Hl as (kw & Hkw & _). by apply _dict_take_returns in Hkw. }
    destruct (locality_of_keys loc Hkeys) as (l' & Hl' & Hfields).
    rewrite Hl in Hl'. by injection Hl' as <-.
  - apply find_all_returns.
  - intros before items source after Hsource Hnone.
    rewrite !find_all_app.
    change (VDict items :: after) with ([VDict items] ++ after).
    assert (find_all [VDict items] = Returns []) as Hone.
    { unfold find_all. cbn [for_results subscript]. rewrite Hsource.
      cbn [mbind outcome_bind]. by rewrite Hnone. }
    destruct (find_all before) as [entries1| |]; cbn [mbind outcome_bind]; [|done..].
    rewrite find_all_app, Hone. cbn [mbind outcome_bind].
    by destruct (find_all after).
  - intros before items id source after st entries1 entries2
           Hsource Hid Hst Hbefore Hafter.
    change (VDict items :: after) with ([VDict items] ++ after).
    rewrite !find_all_app, Hbefore, Hafter, (find_all_one items id source) by done.
    rewrite to_state_returns in Hst.
    destruct (to_state_body source) as [st'| |]; by simplify_eq.
Qed.

(** C9, the claim refuted: a record with a field too many, a number
    for a username and a string for a radius is accepted as it is, and
    [find_all] gives an entry for it. *)
Lemma to_state_accepts_extra_and_mistyped_fields :
  to_state odd_doc =
    Returns (Some {| doc_type_ := VStr "locality"; doc_username := VInt 7;
                     doc_localities :=
                       [{| doc_sourceipaddress := VStr "1.1.1.1";
                           doc_city := VStr "Paris"; doc_country := VStr "FR";
                           doc_lastaction := VNone; doc_latitude := VFloat 48.5;
                           doc_longitude := VFloat 2.5;
                           doc_radius := VStr "wide" |}] |}) ∧
  ∃ entry, find_all [hit (VStr "id-1") odd_doc] = Returns [entry].
Proof. split; [vm_compute; reflexivity | eexists; vm_compute; reflexivity]. Qed.

(** A record without a username between two good ones: one entry each
    for the good ones. *)
Lemma find_all_skips_the_nameless_record :
  to_state nameless_doc = Returns None ∧
  ∃ st,
    to_state alice_doc = Returns (Some st) ∧
    find_all [hit (VStr "id-1") alice_doc; hit (VStr "id-2") nameless_doc;
              hit (VStr "id-3") alice_doc] =
      Returns [{| identifier := VStr "id-1"; entry_state := st |};
               {| identifier := VStr "id-3"; entry_state := st |}].
Proof.
  split; [vm_compute; reflexivity|].
  eexists. split; vm_compute; reflexivity.
Qed.

(** What [to_state] does not cover: a hit without [_source] ends the
    run with the [KeyError] of the lookup. *)
Lemma find_all_needs_the_source_key :
  find_all [hit (VStr "id-1") alice_doc; VDict [("_id", VStr "id-2")]] =
    Raises KeyError.
Proof. vm_compute. reflexivity. Qed.

(** ** The scenarios of the specification *)

(** A: the same place an hour later is an update. *)
Example scenario_A :
  ∃ h',
    merge sample_store [user "alice" 1] [user "alice" 2] =
      Returns (h', [{| state := user "alice" 1; did_update := true |}]) ∧
    h' 1%nat = [paris (t0 + hour) "1.1.1.1"].
Proof. eexists. split; vm_compute; reflexivity. Qed.

(** B: the same place an hour earlier, from the same address, is not. *)
Example scenario_B :
  ∃ h',
    merge sample_store [user "alice" 1] [user "alice" 8] =
      Returns (h', [{| state := user "alice" 1; did_update := false |}]) ∧
    h' 1%nat = [paris t0 "1.1.1.1"].
Proof. eexists. split; vm_compute; reflexivity. Qed.

(** C: a user seen for the first time. *)
Example scenario_C :
  ∃ h',
    merge sample_store [] [user "bob" 9] =
      Returns (h', [{| state := user "bob" 9; did_update := true |}]) ∧
    h' 9%nat = [rome t0 "2.2.2.2"].
Proof. eexists. split; vm_compute; reflexivity. Qed.

(** D: forty days old with thirty days of retention, and a second pass
    at the same instant. *)
Example scenario_D :
  (remove_outdated [paris (t0 - 40 * us_per_day) "1.1.1.1";
                    rome (t0 - 10 * us_per_day) "2.2.2.2"] 30 (λ _, t0)).1 =
    Returns [rome (t0 - 10 * us_per_day) "2.2.2.2"] ∧
  (remove_outdated [rome (t0 - 10 * us_per_day) "2.2.2.2"] 30 (λ _, t0)).1 =
    Returns [rome (t0 - 10 * us_per_day) "2.2.2.2"].
Proof. split; vm_compute; reflexivity. Qed.

(** A retention that leads out of the calendar raises, unless there is
    nothing to filter. *)
Example remove_outdated_overflow :
  (remove_outdated [paris t0 "1.1.1.1"] 10000000 (λ _, t0)).1 = Raises OverflowError ∧
  (remove_outdated [] 10000000 (λ _, t0)).1 = Returns [].
Proof. split; vm_compute; reflexivity. Qed.

(** One list object for both states: nothing is appended while it is
    gone through, and the call returns. *)
Example update_of_a_shared_list :
  ∃ h',
    _update sample_store (user "bob" 4) (user "bob" 4) =
      Returns (h', {| state := user "bob" 4; did_update := false |}) ∧
    h' 4%nat = sample_store 4%nat.
Proof. eexists. split; vm_compute; reflexivity. Qed.

(** * Further properties of the code *)

(** ** One call of [_update] *)

Lemma spec_merge_locality_no_change L current :
  (spec_merge_locality L current).2 = false →
  (spec_merge_locality L current).1 = current.
Proof.
  induction current as [|M current IH]; simpl; [done|].
  case_bool_decide.
  - by case_bool_decide.
  - destruct (spec_merge_locality L current) as [rest' c]. simpl in *.
    intros ->. by rewrite IH.
Qed.

Lemma spec_merge_one_no_change incoming :
  ∀ current changed,
    (spec_merge_one current incoming changed).2 = false →
    changed = false ∧ (spec_merge_one current incoming changed).1 = current.
Proof.
  induction incoming as [|L incoming IH]; intros current changed; simpl; [done|].
  pose proof (spec_merge_locality_no_change L current) as Hstep.
  destruct (spec_merge_locality L current) as [current' c]. simpl in Hstep.
  intros Hflag. destruct (IH _ _ Hflag) as [Hor Hsame].
  apply orb_false_elim in Hor as [-> ->]. split; [done|].
  rewrite Hsame. by apply Hstep.
Qed.

(** X1. The flag of a single call is sound: when [_update] reports
    [did_update = False], no list of the store has changed. *)
Theorem update_unchanged_flag_means_same_store h state from_evt :
  ∃ h' changed,
    _update h state from_evt =
      Returns (h', {| state := state; did_update := changed |}) ∧
    (changed = false → ∀ r, h' r = h r).
Proof.
  destruct (_update_merge h state from_evt) as (h' & changed & Hrun & Hres & Hframe).
  exists h', changed. split; [done|]. intros -> r.
  destruct (decide (r = localities state)) as [->|Hr]; [|by apply Hframe].
  destruct (spec_merge_one_no_change (h (localities from_evt))
              (h (localities state)) false) as [_ Hsame].
  - by rewrite <- Hres.
  - by rewrite <- Hres in Hsame.
Qed.

Lemma spec_merge_one_added incoming :
  ∀ current changed,
    ∃ added,
      place <$> (spec_merge_one current incoming changed).1 =
        (place <$> current) ++ added ∧
      NoDup added ∧
      ∀ k, k ∈ added ↔ k ∈ place <$> incoming ∧ k ∉ place <$> current.
Proof.
  induction incoming as [|L incoming IH]; intros current changed;
    cbn [spec_merge_one].
  - exists []. rewrite app_nil_r. split; [done|]. split; [constructor|].
    intros k. split; [intros Hk; inversion Hk | intros [Hk _]; inversion Hk].
  - pose proof (spec_merge_locality_places L current) as Hp.
    destruct (spec_merge_locality L current) as [current' c]. simpl in Hp.
    destruct (IH current' (changed || c)) as (added & Heq & Hnd & Hadded).
    case_decide as Hin.
    + exists added. split; [by rewrite Heq, Hp|]. split; [done|].
      intros k. rewrite Hadded, Hp, fmap_cons, elem_of_cons.
      split; [tauto|]. intros [[->|?] ?]; tauto.
    + exists (place L :: added). split; [by rewrite Heq, Hp, <- app_assoc|].
      split.
      * apply list.NoDup_cons. split; [|done]. rewrite Hadded, Hp.
        intros [_ Hn]. apply Hn, elem_of_app. right. by apply list_elem_of_singleton.
      * intros k. rewrite elem_of_cons, Hadded, Hp, fmap_cons, elem_of_cons,
          elem_of_app, list_elem_of_singleton.
        destruct (decide (k = place L)) as [->|Hk]; [tauto|]. tauto.
Qed.

(** X2. Whatever the two lists hold, [_update] removes and moves
    nothing: the (city, country) pairs of the result are those of the
    current list, position by position, followed by the incoming pairs
    that were not there, each once.  So the list grows by at most the
    number of incoming localities, and every observed place is in the
    result. *)
Theorem update_places_are_current_then_new h state from_evt :
  ∃ h' changed added,
    _update h state from_evt =
      Returns (h', {| state := state; did_update := changed |}) ∧
    place <$> h' (localities state) = (place <$> h (localities state)) ++ added ∧
    NoDup added ∧
    (∀ k, k ∈ added ↔
          k ∈ place <$> h (localities from_evt) ∧ k ∉ place <$> h (localities state)) ∧
    (length (h (localities state)) ≤ length (h' (localities state))
       ≤ length (h (localities state)) + length (h (localities from_evt)))%nat ∧
    (∀ L, L ∈ h (localities from_evt) → place L ∈ place <$> h' (localities state)).
Proof.
  destruct (_update_merge h state from_evt) as (h' & changed & Hrun & Hres & _).
  destruct (spec_merge_one_added (h (localities from_evt))
              (h (localities state)) false) as (added & Heq & Hnd & Hadded).
  rewrite <- Hres in Heq. simpl in Heq.
  exists h', changed, added.
  split; [done|]. split; [done|]. split; [done|]. split; [exact Hadded|].
  split; [split|].
  - rewrite <- (length_fmap place (h' _)), Heq, length_app, length_fmap. lia.
  - rewrite <- (length_fmap place (h' _)), Heq, length_app, length_fmap.
    assert (length added ≤ length (place <$> h (localities from_evt)))%nat as Hle.
    { apply submseteq_length, NoDup_submseteq; [done|]. intros k Hk. by apply Hadded. }
    rewrite length_fmap in Hle. lia.
  - intros L HL. rewrite Heq, elem_of_app.
    destruct (decide (place L ∈ place <$> h (localities state))) as [|Hn]; [by left|].
    right. apply Hadded. split; [by apply list_elem_of_fmap_2 | done].
Qed.

(** A locality neither is more recent than itself nor comes from
    another address. *)
Lemma not_newer_or_moved_self L : ¬ newer_or_moved L L.
Proof. unfold newer_or_moved. intros [?|?]; [lia | done]. Qed.

Lemma spec_merge_locality_again L current :
  spec_merge_locality L (spec_merge_locality L current).1 =
    ((spec_merge_locality L current).1, false).
Proof.
  induction current as [|M current IH]; cbn [spec_merge_locality].
  - cbn [fst spec_merge_locality].
    rewrite bool_decide_eq_true_2 by done.
    by rewrite bool_decide_eq_false_2 by apply not_newer_or_moved_self.
  - case_bool_decide as Hp.
    + case_bool_decide as Hc; cbn [fst spec_merge_locality].
      * rewrite bool_decide_eq_true_2 by done.
        by rewrite bool_decide_eq_false_2 by apply not_newer_or_moved_self.
      * rewrite bool_decide_eq_true_2 by done.
        by rewrite bool_decide_eq_false_2.
    + destruct (spec_merge_locality L current) as [rest' c].
      cbn [fst spec_merge_locality] in *.
      rewrite bool_decide_eq_false_2 by done. by rewrite IH.
Qed.

Lemma spec_merge_locality_cons_other L M rest :
  place M ≠ place L →
  spec_merge_locality L (M :: rest) = (M :: rest, false) →
  spec_merge_locality L rest = (rest, false).
Proof.
  intros Hp. cbn [spec_merge_locality]. rewrite bool_decide_eq_false_2 by done.
  destruct (spec_merge_locality L rest) as [rest' c]. by intros [= -> ->].
Qed.

Lemma spec_merge_locality_settled_other L L' current :
  place L' ≠ place L →
  spec_merge_locality L current = (current, false) →
  spec_merge_locality L (spec_merge_locality L' current).1 =
    ((spec_merge_locality L' current).1, false).
Proof.
  intros Hne. induction current as [|M current IH]; [done|]. intros Hset.
  destruct (decide (place M = place L)) as [HM|HM].
  - assert (¬ newer_or_moved L M) as Hc.
    { intros Hc. cbn [spec_merge_locality] in Hset.
      by rewrite !bool_decide_eq_true_2 in Hset by done. }
    cbn [spec_merge_locality].
    rewrite (bool_decide_eq_false_2 (place M = place L')) by congruence.
    destruct (spec_merge_locality L' current) as [rest' c].
    cbn [fst spec_merge_locality].
    rewrite bool_decide_eq_true_2 by done. by rewrite bool_decide_eq_false_2.
  - pose proof (spec_merge_locality_cons_other L M current HM Hset) as Hrest.
    cbn [spec_merge_locality]. case_bool_decide as HM'.
    + case_bool_decide; cbn [fst spec_merge_locality];
        rewrite bool_decide_eq_false_2 by done; by rewrite Hrest.
    + specialize (IH Hrest).
      destruct (spec_merge_locality L' current) as [rest' c].
      cbn [fst spec_merge_locality] in *.
      rewrite bool_decide_eq_false_2 by done. by rewrite IH.
Qed.

Lemma spec_merge_one_settled_others L incoming :
  (∀ L', L' ∈ incoming → place L' ≠ place L) →
  ∀ current changed,
    spec_merge_locality L current = (current, false) →
    spec_merge_locality L (spec_merge_one current incoming changed).1 =
      ((spec_merge_one current incoming changed).1, false).
Proof.
  induction incoming as [|L' incoming IH]; intros Hne current changed Hset;
    cbn [spec_merge_one]; [done|].
  pose proof (spec_merge_locality_settled_other L L' current) as Hstep.
  destruct (spec_merge_locality L' current) as [current' c]. cbn [fst] in Hstep.
  apply IH; [intros ? ?; apply Hne; by right|].
  apply Hstep; [apply Hne; left | done].
Qed.

Lemma spec_merge_one_settles incoming :
  NoDup (place <$> incoming) →
  ∀ current changed L,
    L ∈ incoming →
    spec_merge_locality L (spec_merge_one current incoming changed).1 =
      ((spec_merge_one current incoming changed).1, false).
Proof.
  induction incoming as [|L0 incoming IH]; intros Hnd current changed L HL;
    [inversion HL|].
  rewrite fmap_cons in Hnd. apply list.NoDup_cons in Hnd as [Hfirst Hnd].
  cbn [spec_merge_one].
  pose proof (spec_merge_locality_again L0 current) as Hagain.
  destruct (spec_merge_locality L0 current) as [current' c]. cbn [fst] in Hagain.
  apply elem_of_cons in HL as [->|HL]; [|by apply IH].
  apply spec_merge_one_settled_others; [|done].
  intros L' HL' Heq. apply Hfirst. rewrite <- Heq. by apply list_elem_of_fmap_2.
Qed.

Lemma spec_merge_one_of_settled incoming :
  ∀ current changed,
    (∀ L, L ∈ incoming → spec_merge_locality L current = (current, false)) →
    spec_merge_one current incoming changed = (current, changed).
Proof.
  induction incoming as [|L incoming IH]; intros current changed Hall;
    cbn [spec_merge_one]; [done|].
  rewrite (Hall L) by left. rewrite orb_false_r.
  apply IH. intros L' HL'. apply Hall. by right.
Qed.

Lemma spec_merge_one_self incoming :
  NoDup (place <$> incoming) →
  spec_merge_one incoming incoming false = (incoming, false).
Proof.
  intros Hnd. apply spec_merge_one_of_settled. intros L HL.
  apply list_elem_of_split in HL as (pre & post & ->).
  rewrite fmap_app, fmap_cons in Hnd.
  apply list.NoDup_app in Hnd as (_ & Hdisj & _).
  rewrite spec_merge_locality_present; [|
    intros M' HM' Heq; apply (Hdisj (place M')); [by apply list_elem_of_fmap_2|];
    rewrite Heq; left | done].
  by rewrite bool_decide_eq_false_2 by apply not_newer_or_moved_self.
Qed.

(** X3. Merging the same observed state a second time changes nothing
    and says so, provided its localities have distinct (city, country)
    pairs: the second call returns [did_update = False] and the store of
    the first. *)
Theorem update_again_changes_nothing h state from_evt :
  unique_places (h (localities from_evt)) →
  ∃ h1 changed h2,
    _update h state from_evt =
      Returns (h1, {| state := state; did_update := changed |}) ∧
    _update h1 state from_evt =
      Returns (h2, {| state := state; did_update := false |}) ∧
    ∀ r, h2 r = h1 r.
Proof.
  intros Hu.
  destruct (_update_merge h state from_evt) as (h1 & changed & Hrun1 & Hres1 & Hframe1).
  destruct (_update_merge h1 state from_evt) as (h2 & c2 & Hrun2 & Hres2 & Hframe2).
  assert (h1 (localities from_evt) = h (localities from_evt)) as Hev.
  { destruct (decide (localities from_evt = localities state)) as [Heq|Hne];
      [|by apply Hframe1].
    rewrite Heq in Hu |- *. rewrite <- Heq in Hres1 at 2.
    rewrite Heq, (spec_merge_one_self _ Hu) in Hres1. by injection Hres1. }
  rewrite Hev in Hres2.
  assert (h1 (localities state) =
            (spec_merge_one (h (localities state)) (h (localities from_evt)) false).1)
    as Hst by by rewrite <- Hres1.
  rewrite spec_merge_one_of_settled in Hres2.
  - injection Hres2 as Hsame ->. exists h1, changed, h2.
    split; [done|]. split; [done|]. intros r.
    destruct (decide (r = localities state)) as [->|Hr]; [done | by apply Hframe2].
  - intros L HL. rewrite Hst. by apply spec_merge_one_settles.
Qed.

Lemma update_again_changes_nothing_witness :
  unique_places (sample_store (localities (user "alice" 5))) ∧
  ∃ h1 changed h2,
    _update sample_store (user "alice" 1) (user "alice" 5) =
      Returns (h1, {| state := user "alice" 1; did_update := changed |}) ∧
    _update h1 (user "alice" 1) (user "alice" 5) =
      Returns (h2, {| state := user "alice" 1; did_update := false |}) ∧
    ∀ r, h2 r = h1 r.
Proof.
  assert (unique_places (sample_store (localities (user "alice" 5)))) as Hu.
  { apply (bool_decide_unpack _). vm_compute. exact I. }
  split; [exact Hu|].
  exact (update_again_changes_nothing sample_store (user "alice" 1) (user "alice" 5) Hu).
Defined.

(** ** What [merge] keeps of its inputs *)

Lemma dict_get_Some_elem {V} (d : dict V) k v : dict_get d k = Some v → (k, v) ∈ d.
Proof.
  induction d as [|[k' v'] d IH]; simpl; [done|].
  case_bool_decide; [intros [= ->]; subst; left | intros ?; right; auto].
Qed.

Lemma dict_get_of_elem {V} (d : dict V) k v :
  NoDup d.*1 → (k, v) ∈ d → dict_get d k = Some v.
Proof.
  induction d as [|[k' v'] d IH]; intros Hnd Hin; [inversion Hin|].
  rewrite fmap_cons in Hnd. apply list.NoDup_cons in Hnd as [Hk Hnd]. simpl in *.
  apply elem_of_cons in Hin as [[= -> ->]|Hin].
  - by rewrite bool_decide_eq_true_2.
  - rewrite bool_decide_eq_false_2; [by apply IH|].
    intros ->. apply Hk. by apply (list_elem_of_fmap_2 fst _ (k, v)).
Qed.

Lemma dict_set_keys_NoDup {V} (d : dict V) k v : NoDup d.*1 → NoDup (dict_set d k v).*1.
Proof.
  intros Hnd. rewrite dict_set_keys. case_decide as Hin; [done|].
  apply list.NoDup_app. split; [done|]. split; [|apply NoDup_singleton].
  intros k' Hk' ->%list_elem_of_singleton. done.
Qed.

(** Every entry of the mapping sits under the username of its state. *)
Lemma dict_set_keyed (d : dict Update) k u :
  username (state u) = k →
  username ∘ state <$> d.*2 = d.*1 →
  username ∘ state <$> (dict_set d k u).*2 = (dict_set d k u).*1.
Proof.
  intros Hu. induction d as [|[k' u'] d IH]; intros Hd.
  - simpl. by rewrite Hu.
  - rewrite !fmap_cons in Hd. injection Hd as Hk' Hd. cbn [dict_set].
    case_bool_decide as Hk; rewrite !fmap_cons; cbn [fst snd].
    + f_equal; [simpl; congruence | done].
    + f_equal; [done | by apply IH].
Qed.

Lemma dict_set_present_states (d : dict Update) k u u1 :
  dict_get d k = Some u → state u1 = state u →
  state <$> (dict_set d k u1).*2 = state <$> d.*2.
Proof.
  intros Hget Hst. induction d as [|[k' u'] d IH]; [done|]. simpl in *.
  case_bool_decide; rewrite !fmap_cons; cbn [snd].
  - injection Hget as ->. by rewrite Hst.
  - f_equal. by apply IH.
Qed.

Lemma seed_entries_keyed persisted :
  ∀ mapped,
    username ∘ state <$> mapped.*2 = mapped.*1 → NoDup mapped.*1 →
    username ∘ state <$> (fold_left seed_entry persisted mapped).*2 =
      (fold_left seed_entry persisted mapped).*1 ∧
    NoDup (fold_left seed_entry persisted mapped).*1 ∧
    ∀ u, u ∈ (fold_left seed_entry persisted mapped).*2 →
         u ∈ mapped.*2 ∨ ∃ st, st ∈ persisted ∧ u = Build_Update st false.
Proof.
  induction persisted as [|st persisted IH]; intros mapped Hk Hnd.
  - split; [done|]. split; [done|]. by left.
  - cbn [fold_left].
    destruct (IH (seed_entry mapped st)) as (Hk' & Hnd' & Hin).
    + by apply dict_set_keyed.
    + by apply dict_set_keys_NoDup.
    + split; [done|]. split; [done|]. intros u Hu.
      destruct (Hin u Hu) as [Hold|(st' & Hst' & ->)].
      * apply list_elem_of_fmap in Hold as ([k u'] & -> & Hold). simpl.
        unfold seed_entry in Hold.
        destruct (dict_get mapped k) as [u0|] eqn:Hget.
        -- destruct (decide (k = username st)) as [->|Hne].
           ++ assert (dict_get (dict_set mapped (username st) (Build_Update st false))
                        (username st) = Some u') as Hget'.
              { apply dict_get_of_elem; [by apply dict_set_keys_NoDup | done]. }
              rewrite dict_get_set, bool_decide_eq_true_2 in Hget' by done.
              injection Hget' as <-. right. exists st. split; [left | done].
           ++ assert (dict_get (dict_set mapped (username st) (Build_Update st false))
                        k = Some u') as Hget'.
              { apply dict_get_of_elem; [by apply dict_set_keys_NoDup | done]. }
              rewrite dict_get_set, bool_decide_eq_false_2 in Hget' by done.
              left. apply (list_elem_of_fmap_2 snd _ (k, u')).
              by apply dict_get_Some_elem.
        -- assert (dict_get (dict_set mapped (username st) (Build_Update st false))
                     k = Some u') as Hget'.
           { apply dict_get_of_elem; [by apply dict_set_keys_NoDup | done]. }
           rewrite dict_get_set in Hget'. case_bool_decide; [|congruence].
           injection Hget' as <-. right. exists st. split; [left | done].
      * right. exists st'. split; [by right | done].
Qed.

(** One turn of the loop over the observed states. *)
Lemma for_event_sourced_cons h mapped new_state rest :
  ∃ h1 u1,
    for_event_sourced h mapped (new_state :: rest) =
      for_event_sourced h1 (dict_set mapped (username new_state) u1) rest ∧
    ((∃ u, dict_get mapped (username new_state) = Some u ∧ state u1 = state u ∧
           ∀ r, r ≠ localities (state u) → h1 r = h r) ∨
     (dict_get mapped (username new_state) = None ∧
      u1 = {| state := new_state; did_update := true |} ∧ h1 = h)).
Proof.
  cbn [for_event_sourced].
  destruct (dict_get mapped (username new_state)) as [u|] eqn:Hget.
  - destruct (_update_merge h (state u) new_state) as (h1 & c & -> & _ & Hframe).
    exists h1, {| state := state u; did_update := c |}. split; [done|].
    left. exists u. by repeat split.
  - exists h, {| state := new_state; did_update := true |}. split; [done|]. by right.
Qed.

Lemma for_event_sourced_invariants event_sourced :
  ∀ h mapped,
    username ∘ state <$> mapped.*2 = mapped.*1 → NoDup mapped.*1 →
    ∃ h' mapped',
      for_event_sourced h mapped event_sourced = Returns (h', mapped') ∧
      username ∘ state <$> mapped'.*2 = mapped'.*1 ∧
      NoDup mapped'.*1 ∧
      (∀ name, name ∈ mapped'.*1 ↔
               name ∈ mapped.*1 ∨ name ∈ username <$> event_sourced) ∧
      (∃ added, state <$> mapped'.*2 = (state <$> mapped.*2) ++ added ∧
                ∀ st, st ∈ added → st ∈ event_sourced) ∧
      (∀ r, r ∉ localities <$> (state <$> mapped'.*2) → h' r = h r) ∧
      (∀ name, name ∉ username <$> event_sourced →
               dict_get mapped' name = dict_get mapped name).
Proof.
  induction event_sourced as [|new_state rest IH]; intros h mapped Hk Hnd.
  - exists h, mapped. split; [done|]. split; [done|]. split; [done|].
    split; [intros name; split; [by left | intros [?|Hin]; [done | inversion Hin]]|].
    split; [exists []; rewrite app_nil_r; split; [done | intros ? Hin; inversion Hin]|].
    done.
  - destruct (for_event_sourced_cons h mapped new_state rest) as (h1 & u1 & -> & Hstep).
    assert (username (state u1) = username new_state) as Hu1.
    { destruct Hstep as [(u & Hget & Hst & _)|(_ & -> & _)]; [|done].
      rewrite Hst. apply dict_get_Some_elem in Hget.
      apply list_elem_of_lookup in Hget as [i Hi].
      assert ((username ∘ state <$> mapped.*2) !! i = mapped.*1 !! i) as Hi'
        by by rewrite Hk.
      by rewrite !list_lookup_fmap, Hi in Hi'; simpl in Hi'; injection Hi'. }
    destruct (IH h1 (dict_set mapped (username new_state) u1))
      as (h' & mapped' & Hrun & Hk' & Hnd' & Hkeys & (added & Hstates & Hadded)
          & Hframe & Hget');
      [by apply dict_set_keyed | by apply dict_set_keys_NoDup |].
    exists h', mapped'. split; [done|]. split; [done|]. split; [done|].
    split; [|split; [|split]].
    + intros name. rewrite Hkeys, dict_set_keys, fmap_cons, elem_of_cons.
      case_decide as Hin.
      * split; [tauto|]. intros [?|[->|?]]; tauto.
      * rewrite elem_of_app, list_elem_of_singleton. tauto.
    + destruct Hstep as [(u & Hget & Hst & _)|(Hget & -> & _)].
      * exists added. rewrite Hstates, (dict_set_present_states _ _ u) by done.
        split; [done|]. intros st Hin. right. by apply Hadded.
      * exists (new_state :: added).
        rewrite Hstates, dict_set_absent, !fmap_app, <- app_assoc by done.
        split; [done|]. intros st [->|Hin]%elem_of_cons; [left | right; by apply Hadded].
    + intros r Hr. rewrite Hframe by done.
      destruct Hstep as [(u & Hget & Hst & Hframe1)|(_ & _ & ->)]; [|done].
      apply Hframe1. intros ->. apply Hr. rewrite Hstates.
      apply list_elem_of_fmap_2, elem_of_app. left.
      rewrite (dict_set_present_states _ _ u) by done.
      apply list_elem_of_fmap_2.
      apply (list_elem_of_fmap_2 snd _ (username new_state, u)).
      by apply dict_get_Some_elem.
    + intros name Hname. rewrite fmap_cons in Hname.
      rewrite Hget' by (intros Hin; apply Hname; by right).
      rewrite dict_get_set, bool_decide_eq_false_2; [done|].
      intros Heq. apply Hname. rewrite Heq. left.
Qed.

Lemma keyed_entry (d : dict Update) u :
  username ∘ state <$> d.*2 = d.*1 → NoDup d.*1 → u ∈ d.*2 →
  dict_get d (username (state u)) = Some u.
Proof.
  intros Hk Hnd Hu. apply list_elem_of_fmap in Hu as ([k u'] & -> & Hin). simpl.
  apply dict_get_of_elem; [done|].
  apply list_elem_of_lookup in Hin as [i Hi].
  assert ((username ∘ state <$> d.*2) !! i = d.*1 !! i) as Hi' by by rewrite Hk.
  rewrite !list_lookup_fmap, Hi in Hi'. simpl in Hi'. injection Hi' as ->.
  apply list_elem_of_lookup. by exists i.
Qed.

Lemma seed_invariants persisted :
  username ∘ state <$> (seed persisted).*2 = (seed persisted).*1 ∧
  NoDup (seed persisted).*1 ∧
  ∀ u, u ∈ (seed persisted).*2 → ∃ st, st ∈ persisted ∧ u = Build_Update st false.
Proof.
  destruct (seed_entries_keyed persisted []) as (Hk & Hnd & Hin);
    [done | constructor |].
  split; [done|]. split; [done|]. intros u Hu.
  destruct (Hin u Hu) as [Hnil|?]; [inversion Hnil | done].
Qed.

(** X4. Whatever the two collections are (usernames repeated or
    shared), [merge] returns and its output has exactly one result for
    each username of either input. *)
Theorem merge_lists_each_username_once h persisted event_sourced :
  ∃ h' out,
    merge h persisted event_sourced = Returns (h', out) ∧
    NoDup (username ∘ state <$> out) ∧
    ∀ name, name ∈ username ∘ state <$> out ↔
            name ∈ username <$> persisted ∨ name ∈ username <$> event_sourced.
Proof.
  destruct (seed_invariants persisted) as (Hk & Hnd & _).
  destruct (for_event_sourced_invariants event_sourced h (seed persisted) Hk Hnd)
    as (h' & mapped' & Hrun & Hk' & Hnd' & Hkeys & _).
  exists h', (dict_values mapped'). unfold merge. rewrite Hrun.
  split; [done|]. unfold dict_values. rewrite Hk'. split; [done|].
  intros name. rewrite Hkeys. unfold seed. rewrite seed_entries_keys.
  split; [intros [[Hnil|?]|?]; [inversion Hnil | by left | by right] | tauto].
Qed.

(** X5. [merge] builds no state of its own and writes to no list but
    those of its results: the state of every result is one of the states
    it was given, and a list that belongs to no result is after the call
    what it was before. *)
Theorem merge_results_are_given_states h persisted event_sourced :
  ∃ h' out,
    merge h persisted event_sourced = Returns (h', out) ∧
    (∀ u, u ∈ out → state u ∈ persisted ∨ state u ∈ event_sourced) ∧
    (∀ r, (∀ u, u ∈ out → localities (state u) ≠ r) → h' r = h r).
Proof.
  destruct (seed_invariants persisted) as (Hk & Hnd & Hseed).
  destruct (for_event_sourced_invariants event_sourced h (seed persisted) Hk Hnd)
    as (h' & mapped' & Hrun & _ & _ & _ & (added & Hstates & Hadded) & Hframe & _).
  exists h', (dict_values mapped'). unfold merge. rewrite Hrun.
  split; [done|]. unfold dict_values. split.
  - intros u Hu. apply (list_elem_of_fmap_2 state) in Hu.
    rewrite Hstates in Hu. apply elem_of_app in Hu as [Hu|Hu]; [|right; by apply Hadded].
    left. apply list_elem_of_fmap in Hu as (u0 & -> & Hu0).
    by destruct (Hseed u0 Hu0) as (st & Hst & ->).
  - intros r Hr. apply Hframe. intros Hin.
    apply list_elem_of_fmap in Hin as (st & -> & Hst).
    apply list_elem_of_fmap in Hst as (u & -> & Hu). by apply (Hr u).
Qed.

(** X6. A result is marked changed only if its username is among the
    observed ones: a user who was not observed is never marked changed. *)
Theorem merge_changed_only_if_observed h persisted event_sourced :
  ∃ h' out,
    merge h persisted event_sourced = Returns (h', out) ∧
    ∀ u, u ∈ out → did_update u = true →
         username (state u) ∈ username <$> event_sourced.
Proof.
  destruct (seed_invariants persisted) as (Hk & Hnd & Hseed).
  destruct (for_event_sourced_invariants event_sourced h (seed persisted) Hk Hnd)
    as (h' & mapped' & Hrun & Hk' & Hnd' & _ & _ & _ & Hget).
  exists h', (dict_values mapped'). unfold merge. rewrite Hrun.
  split; [done|]. intros u Hu Hflag.
  destruct (decide (username (state u) ∈ username <$> event_sourced)) as [|Hn]; [done|].
  exfalso. pose proof (keyed_entry mapped' u Hk' Hnd' Hu) as Hu'.
  rewrite (Hget _ Hn) in Hu'. apply dict_get_Some_elem in Hu'.
  apply (list_elem_of_fmap_2 snd) in Hu'. simpl in Hu'.
  destruct (Hseed u Hu') as (st & _ & ->). discriminate.
Qed.

Lemma seed_of_last pre st post :
  (∀ st', st' ∈ post → username st' ≠ username st) →
  dict_get (seed (pre ++ st :: post)) (username st) = Some (Build_Update st false).
Proof.
  intros Hpost. unfold seed. rewrite seed_entries_last.
  rewrite list.filter_app, filter_cons, decide_True by done.
  assert (filter (λ st', username st' = username st) post = []) as ->.
  { induction post as [|st' post IH]; [done|].
    rewrite filter_cons, decide_False by (apply Hpost; left).
    apply IH. intros ? ?. apply Hpost. by right. }
  by rewrite last_snoc.
Qed.

(** X7. A persisted user who is not observed comes back as persisted:
    the one result of that username is the last persisted state of the
    name, marked unchanged. *)
Theorem merge_keeps_unobserved_user h before st after event_sourced :
  (∀ st', st' ∈ after → username st' ≠ username st) →
  username st ∉ username <$> event_sourced →
  ∃ h' out,
    merge h (before ++ st :: after) event_sourced = Returns (h', out) ∧
    {| state := st; did_update := false |} ∈ out ∧
    ∀ u, u ∈ out → username (state u) = username st →
         u = {| state := st; did_update := false |}.
Proof.
  intros Hlast Hunseen.
  destruct (seed_invariants (before ++ st :: after)) as (Hk & Hnd & _).
  destruct (for_event_sourced_invariants event_sourced h _ Hk Hnd)
    as (h' & mapped' & Hrun & Hk' & Hnd' & _ & _ & _ & Hget).
  exists h', (dict_values mapped'). unfold merge. rewrite Hrun.
  split; [done|].
  specialize (Hget _ Hunseen). rewrite seed_of_last in Hget by done.
  split.
  - apply dict_get_Some_elem in Hget. by apply (list_elem_of_fmap_2 snd) in Hget.
  - intros u Hu Hname. pose proof (keyed_entry mapped' u Hk' Hnd' Hu) as Hu'.
    rewrite Hname, Hget in Hu'. by injection Hu'.
Qed.

Lemma merge_keeps_unobserved_user_witness :
  (∀ st', st' ∈ [user "carol" 7] → username st' ≠ username (user "alice" 1)) ∧
  (username (user "alice" 1) ∉ username <$> [user "bob" 4]) ∧
  ∃ h' out,
    merge sample_store ([user "alice" 8] ++ user "alice" 1 :: [user "carol" 7])
      [user "bob" 4] = Returns (h', out) ∧
    {| state := user "alice" 1; did_update := false |} ∈ out ∧
    ∀ u, u ∈ out → username (state u) = username (user "alice" 1) →
         u = {| state := user "alice" 1; did_update := false |}.
Proof.
  assert (∀ st', st' ∈ [user "carol" 7] → username st' ≠ username (user "alice" 1))
    as Hlast by (intros st' ->%list_elem_of_singleton; discriminate).
  assert (username (user "alice" 1) ∉ username <$> [user "bob" 4]) as Hunseen
    by (intros Hin%list_elem_of_singleton; discriminate).
  split; [exact Hlast|]. split; [exact Hunseen|].
  exact (merge_keeps_unobserved_user sample_store [user "alice" 8] (user "alice" 1)
           [user "carol" 7] [user "bob" 4] Hlast Hunseen).
Defined.

Lemma for_event_sourced_app observed1 :
  ∀ h mapped observed2,
    for_event_sourced h mapped (observed1 ++ observed2) =
      for_event_sourced h mapped observed1 ≫=
        λ '(h1, mapped1), for_event_sourced h1 mapped1 observed2.
Proof.
  induction observed1 as [|new_state observed1 IH]; intros h mapped observed2; [done|].
  cbn [app for_event_sourced].
  destruct (dict_get mapped (username new_state)) as [u|]; [|apply IH].
  destruct (_update h (state u) new_state) as [[h1 u1]| |]; [|done..].
  cbn [mbind outcome_bind]. apply IH.
Qed.

(** X8. A user who is not persisted and is observed once comes back as
    observed: the one result of that username is the observed state,
    marked changed. *)
Theorem merge_adds_user_seen_once h persisted before st after :
  username st ∉ username <$> persisted →
  username st ∉ username <$> before →
  username st ∉ username <$> after →
  ∃ h' out,
    merge h persisted (before ++ st :: after) = Returns (h', out) ∧
    {| state := st; did_update := true |} ∈ out ∧
    ∀ u, u ∈ out → username (state u) = username st →
         u = {| state := st; did_update := true |}.
Proof.
  intros Hnew Hbefore Hafter.
  destruct (seed_invariants persisted) as (Hk & Hnd & _).
  destruct (for_event_sourced_invariants before h (seed persisted) Hk Hnd)
    as (h1 & mapped1 & Hrun1 & Hk1 & Hnd1 & _ & _ & _ & Hget1).
  assert (dict_get mapped1 (username st) = None) as Hnone.
  { rewrite Hget1 by done. apply dict_get_None. unfold seed.
    rewrite seed_entries_keys. intros [Hnil|?]; [inversion Hnil | done]. }
  destruct (for_event_sourced_invariants after h1
              (dict_set mapped1 (username st) {| state := st; did_update := true |}))
    as (h' & mapped' & Hrun & Hk' & Hnd' & _ & _ & _ & Hget);
    [by apply dict_set_keyed | by apply dict_set_keys_NoDup |].
  exists h', (dict_values mapped'). unfold merge.
  rewrite for_event_sourced_app, Hrun1. cbn [mbind outcome_bind for_event_sourced].
  rewrite Hnone, Hrun. split; [done|].
  specialize (Hget _ Hafter). rewrite dict_get_set, bool_decide_eq_true_2 in Hget by done.
  split.
  - apply dict_get_Some_elem in Hget. by apply (list_elem_of_fmap_2 snd) in Hget.
  - intros u Hu Hname. pose proof (keyed_entry mapped' u Hk' Hnd' Hu) as Hu'.
    rewrite Hname, Hget in Hu'. by injection Hu'.
Qed.

Lemma merge_adds_user_seen_once_witness :
  (username (user "bob" 9) ∉ username <$> [user "alice" 1]) ∧
  (username (user "bob" 9) ∉ username <$> [user "alice" 2]) ∧
  (username (user "bob" 9) ∉ username <$> [user "alice" 3]) ∧
  ∃ h' out,
    merge sample_store [user "alice" 1]
      ([user "alice" 2] ++ user "bob" 9 :: [user "alice" 3]) = Returns (h', out) ∧
    {| state := user "bob" 9; did_update := true |} ∈ out ∧
    ∀ u, u ∈ out → username (state u) = username (user "bob" 9) →
         u = {| state := user "bob" 9; did_update := true |}.
Proof.
  assert (∀ r, username (user "bob" 9) ∉ username <$> [user "alice" r]) as Hno
    by (intros r Hin%list_elem_of_singleton; discriminate).
  split; [exact (Hno 1%nat)|]. split; [exact (Hno 2%nat)|]. split; [exact (Hno 3%nat)|].
  exact (merge_adds_user_seen_once sample_store [user "alice" 1] [user "alice" 2]
           (user "bob" 9) [user "alice" 3] (Hno 1%nat) (Hno 2%nat) (Hno 3%nat)).
Defined.

(** ** More on [remove_outdated] *)

(** What the cutoff is at a reading that is a [datetime]. *)
Lemma days_before_valid now days_valid :
  0 ≤ now ≤ datetime_max →
  days_before now days_valid =
    if bool_decide (0 ≤ now - days_valid * us_per_day ≤ datetime_max)
    then Returns (now - days_valid * us_per_day)
    else Raises OverflowError.
Proof.
  intros Hnow. unfold days_before, timedelta_of_days, datetime_sub.
  case_bool_decide as Hdays; cbn [mbind outcome_bind]; [done|].
  rewrite bool_decide_eq_false_2; [done|].
  intros Hcut. apply Hdays. by apply (days_valid_in_range now).
Qed.

(** X9. Whatever the clock reads, what [remove_outdated] returns is
    made of localities of its argument, in their order: it adds nothing
    and moves nothing. *)
Theorem remove_outdated_returns_a_sublist localities days_valid c kept :
  (remove_outdated localities days_valid c).1 = Returns kept →
  kept `sublist_of` localities.
Proof.
  revert c kept. induction localities as [|loc rest IH]; intros c kept.
  - simpl. by intros [= <-].
  - rewrite remove_outdated_cons.
    destruct (days_before (c 0%nat) days_valid) as [cutoff| |]; [|done..].
    specialize (IH (λ n, c (S n))).
    destruct (remove_outdated rest days_valid (λ n, c (S n))) as [[kept'| |] c'];
      [|done..].
    simpl. intros [= <-]. specialize (IH kept' eq_refl).
    destruct (cutoff <=? lastaction loc); by constructor.
Qed.

Lemma remove_outdated_returns_a_sublist_witness :
  (remove_outdated [paris t0 "1.1.1.1"; rome (t0 + 20 * us_per_day) "2.2.2.2"] 30
     (λ n, t0 + 40 * us_per_day + Z.of_nat n)).1 =
    Returns [rome (t0 + 20 * us_per_day) "2.2.2.2"] ∧
  [rome (t0 + 20 * us_per_day) "2.2.2.2"] `sublist_of`
    [paris t0 "1.1.1.1"; rome (t0 + 20 * us_per_day) "2.2.2.2"].
Proof.
  assert ((remove_outdated [paris t0 "1.1.1.1"; rome (t0 + 20 * us_per_day) "2.2.2.2"] 30
             (λ n, t0 + 40 * us_per_day + Z.of_nat n)).1 =
            Returns [rome (t0 + 20 * us_per_day) "2.2.2.2"]) as Hrun
    by (vm_compute; reflexivity).
  split; [exact Hrun|].
  exact (remove_outdated_returns_a_sublist _ _ _ _ Hrun).
Defined.

Lemma remove_outdated_by_readings localities days_valid c :
  ∀ k c',
    (∀ n, c' n = c (k + n)%nat) →
    (∀ n, 0 ≤ c n ≤ datetime_max) →
    (∀ i, (i < length localities)%nat →
          0 ≤ c (k + i)%nat - days_valid * us_per_day ≤ datetime_max) →
    (remove_outdated localities days_valid c').1 =
      Returns (filter (λ p, c p.1 - days_valid * us_per_day ≤ lastaction p.2)
                 (imap (λ i loc, ((k + i)%nat, loc)) localities)).*2 ∧
    ∀ n, (remove_outdated localities days_valid c').2 n =
         c (k + length localities + n)%nat.
Proof.
  induction localities as [|loc rest IH]; intros k c' Hc' Hvalid Hcut.
  - split; [done|]. intros n. simpl. rewrite Hc'. f_equal. lia.
  - rewrite remove_outdated_cons, Hc', days_before_valid by done.
    rewrite bool_decide_eq_true_2 by (apply Hcut; simpl; lia).
    destruct (IH (S k) (λ n, c' (S n))) as [Hres Hclock]; [|done|..].
    { intros n. rewrite Hc'. f_equal. lia. }
    { intros i Hi. replace (S k + i)%nat with (k + S i)%nat by lia.
      apply Hcut. simpl. lia. }
    destruct (remove_outdated rest days_valid (λ n, c' (S n))) as [[kept| |] c1];
      simpl in Hres, Hclock; [|done..].
    injection Hres as ->. split.
    + cbn [fst]. f_equal. rewrite imap_cons, filter_cons. cbn [fst snd].
      rewrite (imap_ext ((λ i loc0, ((k + i)%nat, loc0)) ∘ S)
                 (λ i loc0, ((S k + i)%nat, loc0)))
        by (intros; simpl; f_equal; lia).
      replace (k + 0)%nat with k by lia. cbn [fst snd].
      destruct (Z.leb_spec (c k - days_valid * us_per_day) (lastaction loc)).
      * by rewrite decide_True.
      * by rewrite decide_False by lia.
    + intros n. cbn [snd length]. rewrite Hclock. f_equal. lia.
Qed.

(** X10. The clock is read once for each locality: the locality at
    position [i] is kept exactly when its [lastaction] is at or after the
    [i]-th reading less [days_valid] days, and the call leaves the clock
    as many readings further as there are localities.  (The readings are
    [datetime]s and so are the cutoffs.) *)
Theorem remove_outdated_judges_each_at_its_reading localities days_valid c :
  (∀ n, 0 ≤ c n ≤ datetime_max) →
  (∀ i, (i < length localities)%nat →
        0 ≤ c i - days_valid * us_per_day ≤ datetime_max) →
  (remove_outdated localities days_valid c).1 =
    Returns (filter (λ p, c p.1 - days_valid * us_per_day ≤ lastaction p.2)
               (imap pair localities)).*2 ∧
  ∀ n, (remove_outdated localities days_valid c).2 n = c (length localities + n)%nat.
Proof.
  intros Hvalid Hcut.
  destruct (remove_outdated_by_readings localities days_valid c 0 c) as [Hres Hclock];
    [done..|].
  split; [exact Hres | exact Hclock].
Qed.

Lemma remove_outdated_judges_each_at_its_reading_witness :
  (∀ n : nat, 0 ≤ (λ n : nat, if decide (n = 0%nat) then t0 else t0 + 40 * us_per_day) n
              ≤ datetime_max) ∧
  (∀ i, (i < length [paris t0 "1.1.1.1"; paris t0 "1.1.1.1"])%nat →
        0 ≤ (λ n : nat, if decide (n = 0%nat) then t0 else t0 + 40 * us_per_day) i
            - 30 * us_per_day ≤ datetime_max) ∧
  (remove_outdated [paris t0 "1.1.1.1"; paris t0 "1.1.1.1"] 30
     (λ n, if decide (n = 0%nat) then t0 else t0 + 40 * us_per_day)).1 =
    Returns (filter (λ p, (λ n : nat, if decide (n = 0%nat) then t0
                                      else t0 + 40 * us_per_day) p.1
                          - 30 * us_per_day ≤ lastaction p.2)
               (imap pair [paris t0 "1.1.1.1"; paris t0 "1.1.1.1"])).*2 ∧
  ∀ n, (remove_outdated [paris t0 "1.1.1.1"; paris t0 "1.1.1.1"] 30
          (λ n, if decide (n = 0%nat) then t0 else t0 + 40 * us_per_day)).2 n =
       (λ n : nat, if decide (n = 0%nat) then t0 else t0 + 40 * us_per_day)
         (length [paris t0 "1.1.1.1"; paris t0 "1.1.1.1"] + n)%nat.
Proof.
  assert (∀ n : nat,
            0 ≤ (λ n : nat, if decide (n = 0%nat) then t0 else t0 + 40 * us_per_day) n
              ≤ datetime_max) as Hvalid.
  { intros n. simpl. case_decide; vm_compute; split; discriminate. }
  assert (∀ i, (i < length [paris t0 "1.1.1.1"; paris t0 "1.1.1.1"])%nat →
            0 ≤ (λ n : nat, if decide (n = 0%nat) then t0 else t0 + 40 * us_per_day) i
                - 30 * us_per_day ≤ datetime_max) as Hcut.
  { intros i _. simpl. case_decide; vm_compute; split; discriminate. }
  split; [exact Hvalid|]. split; [exact Hcut|].
  exact (remove_outdated_judges_each_at_its_reading _ 30 _ Hvalid Hcut).
Defined.

(** With the clock of the witness, the first of two equal localities is
    kept and the second dropped. *)
Example remove_outdated_between_two_readings :
  (remove_outdated [paris t0 "1.1.1.1"; paris t0 "1.1.1.1"] 30
     (λ n, if decide (n = 0%nat) then t0 else t0 + 40 * us_per_day)).1 =
    Returns [paris t0 "1.1.1.1"].
Proof. vm_compute. reflexivity. Qed.

(** X11. If at the reading for some locality the cutoff falls outside
    the calendar (before year 1 or after year 9999), the call raises
    [OverflowError] and returns no list. *)
Theorem remove_outdated_raises_out_of_calendar localities days_valid c i :
  (∀ n, 0 ≤ c n ≤ datetime_max) →
  (i < length localities)%nat →
  ¬ (0 ≤ c i - days_valid * us_per_day ≤ datetime_max) →
  (remove_outdated localities days_valid c).1 = Raises OverflowError.
Proof.
  revert c i. induction localities as [|loc rest IH]; intros c i Hvalid Hi Hout;
    [simpl in Hi; lia|].
  rewrite remove_outdated_cons, days_before_valid by done.
  case_bool_decide as Hcut; [|done].
  destruct i as [|i]; [done|].
  assert ((i < length rest)%nat) as Hi' by (simpl in Hi; lia).
  pose proof (IH (λ n, c (S n)) i (λ n, Hvalid (S n)) Hi' Hout) as Hrec.
  destruct (remove_outdated rest days_valid (λ n, c (S n))) as [[kept| |] c'];
    simpl in Hrec |- *; congruence.
Qed.

Lemma remove_outdated_raises_out_of_calendar_witness :
  (∀ n : nat, 0 ≤ (λ _ : nat, t0) n ≤ datetime_max) ∧
  (0 < length [paris t0 "1.1.1.1"])%nat ∧
  ¬ (0 ≤ (λ _ : nat, t0) 0%nat - 10000000 * us_per_day ≤ datetime_max) ∧
  (remove_outdated [paris t0 "1.1.1.1"] 10000000 (λ _, t0)).1 = Raises OverflowError.
Proof.
  assert (∀ n : nat, 0 ≤ (λ _ : nat, t0) n ≤ datetime_max) as Hvalid
    by (intros n; vm_compute; split; discriminate).
  assert (0 < length [paris t0 "1.1.1.1"])%nat as Hi by (simpl; lia).
  assert (¬ (0 ≤ (λ _ : nat, t0) 0%nat - 10000000 * us_per_day ≤ datetime_max)) as Hout.
  { intros [Hlow _]. vm_compute in Hlow. by apply Hlow. }
  split; [exact Hvalid|]. split; [exact Hi|]. split; [exact Hout|].
  exact (remove_outdated_raises_out_of_calendar [paris t0 "1.1.1.1"] 10000000
           (λ _, t0) 0 Hvalid Hi Hout).
Defined.

Lemma filter_sublist_of_weaker {A} (P Q : A → Prop)
    `{!∀ x, Decision (P x)} `{!∀ x, Decision (Q x)} (l : list A) :
  (∀ x, P x → Q x) → filter P l `sublist_of` filter Q l.
Proof.
  intros HPQ. induction l as [|x l IH]; [done|].
  rewrite !filter_cons. destruct (decide (P x)) as [HP|HP].
  - rewrite decide_True by auto. by constructor.
  - case_decide; [by constructor | done].
Qed.

(** X12. At one instant, a longer retention keeps whatever a shorter
    one keeps: with [days1 <= days2], what [remove_outdated] returns for
    [days1] is a sublist of what it returns for [days2]. *)
Theorem remove_outdated_longer_retention_keeps_more localities days1 days2 c now :
  (∀ n, c n = now) →
  0 ≤ now ≤ datetime_max →
  days1 ≤ days2 →
  0 ≤ now - days1 * us_per_day ≤ datetime_max →
  0 ≤ now - days2 * us_per_day ≤ datetime_max →
  ∃ kept1 kept2,
    (remove_outdated localities days1 c).1 = Returns kept1 ∧
    (remove_outdated localities days2 c).1 = Returns kept2 ∧
    kept1 `sublist_of` kept2.
Proof.
  intros Hc Hnow Hdays Hcut1 Hcut2.
  destruct (remove_outdated_still_clock localities days1 now c Hc) as [-> _].
  destruct (remove_outdated_still_clock localities days2 now c Hc) as [-> _].
  destruct localities as [|loc rest]; [by exists [], []|].
  rewrite !days_before_valid, !bool_decide_eq_true_2 by done.
  cbn [mbind outcome_bind]. eexists _, _. split; [done|]. split; [done|].
  apply filter_sublist_of_weaker. intros loc'.
  assert (days1 * us_per_day ≤ days2 * us_per_day)
    by (apply Z.mul_le_mono_nonneg_r; done).
  lia.
Qed.

Lemma remove_outdated_longer_retention_keeps_more_witness :
  (∀ n : nat, (λ _ : nat, t0) n = t0) ∧
  0 ≤ t0 ≤ datetime_max ∧
  7 ≤ 30 ∧
  0 ≤ t0 - 7 * us_per_day ≤ datetime_max ∧
  0 ≤ t0 - 30 * us_per_day ≤ datetime_max ∧
  ∃ kept1 kept2,
    (remove_outdated [paris (t0 - 10 * us_per_day) "1.1.1.1"; rome t0 "2.2.2.2"] 7
       (λ _, t0)).1 = Returns kept1 ∧
    (remove_outdated [paris (t0 - 10 * us_per_day) "1.1.1.1"; rome t0 "2.2.2.2"] 30
       (λ _, t0)).1 = Returns kept2 ∧
    kept1 `sublist_of` kept2.
Proof.
  assert (0 ≤ t0 ≤ datetime_max) as Hnow by (vm_compute; split; discriminate).
  assert (7 ≤ 30) as Hdays by discriminate.
  assert (0 ≤ t0 - 7 * us_per_day ≤ datetime_max) as Hcut1
    by (vm_compute; split; discriminate).
  assert (0 ≤ t0 - 30 * us_per_day ≤ datetime_max) as Hcut2
    by (vm_compute; split; discriminate).
  split; [intros n; reflexivity|]. split; [exact Hnow|]. split; [exact Hdays|].
  split; [exact Hcut1|]. split; [exact Hcut2|].
  exact (remove_outdated_longer_retention_keeps_more
           [paris (t0 - 10 * us_per_day) "1.1.1.1"; rome t0 "2.2.2.2"] 7 30
           (λ _, t0) t0 (λ n, eq_refl) Hnow Hdays Hcut1 Hcut2).
Defined.

(** ** More on reading documents *)

(** X13. [_dict_take] on a mapping returns exactly when every key asked
    for is present, and then gives the keys asked for, in that order,
    each with the value the mapping has for it; with a key missing it
    raises [KeyError].  On anything but a mapping it raises [TypeError],
    unless no key is asked for, when it returns the empty mapping. *)
Theorem dict_take_takes_the_keys_asked_for :
  (∀ items keys,
     NoDup keys →
     (∀ k, k ∈ keys → is_Some (dict_get items k)) →
     ∃ kw, _dict_take (VDict items) keys = Returns kw ∧ kw.*1 = keys ∧
           ∀ k, k ∈ keys → dict_get kw k = dict_get items k) ∧
  (∀ items keys k,
     k ∈ keys → dict_get items k = None →
     _dict_take (VDict items) keys = Raises KeyError) ∧
  (∀ v key keys,
     (∀ items, v ≠ VDict items) →
     _dict_take v (key :: keys) = Raises TypeError) ∧
  (∀ v, _dict_take v [] = Returns []).
Proof.
  split; [|split; [|split]].
  - intros items keys. unfold _dict_take.
    induction keys as [|key keys IH]; intros Hnd Hall.
    + exists []. split; [done|]. split; [done|]. intros k Hk. inversion Hk.
    + apply list.NoDup_cons in Hnd as [Hkey Hnd].
      destruct IH as (kw & Hkw & Hkeys & Hget); [done | intros; apply Hall; by right|].
      destruct (Hall key) as [v Hv]; [left|].
      exists ((key, v) :: kw). cbn [for_each]. rewrite Hkw.
      cbn [subscript]. rewrite Hv.
      split; [done|]. split; [by rewrite fmap_cons, Hkeys|].
      intros k Hk. simpl. case_bool_decide as Heq; [by subst|].
      apply Hget. apply elem_of_cons in Hk as [->|Hk]; done.
  - intros items keys k Hk Hnone. unfold _dict_take.
    induction keys as [|key keys IH]; [inversion Hk|].
    cbn [for_each].
    destruct (dict_get items key) as [v|] eqn:Hv.
    + rewrite IH; [by cbn [subscript]; rewrite Hv|].
      apply elem_of_cons in Hk as [->|Hk]; [congruence | done].
    + cbn [subscript]. by rewrite Hv.
  - intros v key keys Hv. unfold _dict_take. cbn [for_each].
    destruct v; try done. by destruct (Hv items).
  - done.
Qed.

(** X14. What [to_state] and the conversion of one locality make of a
    mapping depends on the fields they name and on nothing else in it:
    two mappings that agree on [type_], [username] and [localities] give
    the same state, two that agree on the seven fields the same
    locality. *)
Theorem to_state_reads_only_its_fields :
  (∀ items items',
     (∀ k, k ∈ State_fields → dict_get items k = dict_get items' k) →
     to_state (VDict items) = to_state (VDict items')) ∧
  (∀ items items',
     (∀ k, k ∈ Locality_fields → dict_get items k = dict_get items' k) →
     to_locality (VDict items) = to_locality (VDict items')).
Proof.
  split; intros items items' Hsame.
  - unfold to_state, to_state_body, _dict_take. cbn [for_each subscript].
    rewrite (Hsame "type_"), (Hsame "username"), (Hsame "localities") by in_fields.
    reflexivity.
  - unfold to_locality, _dict_take, Locality_fields. cbn [for_each subscript].
    rewrite (Hsame "sourceipaddress"), (Hsame "city"), (Hsame "country"),
      (Hsame "lastaction"), (Hsame "latitude"), (Hsame "longitude"),
      (Hsame "radius") by in_fields.
    reflexivity.
Qed.

(** X15. What [to_state] makes of [localities] when it is not a
    non-empty list.  An empty list, an empty mapping and an empty string
    all give a state without localities.  [None], a boolean, a number, a
    non-empty mapping and a non-empty string give no state. *)
Theorem to_state_of_odd_localities :
  (∀ items t u v,
     dict_get items "type_" = Some t →
     dict_get items "username" = Some u →
     dict_get items "localities" = Some v →
     v = VList [] ∨ v = VDict [] ∨ v = VStr "" →
     to_state (VDict items) =
       Returns (Some {| doc_type_ := t; doc_username := u; doc_localities := [] |})) ∧
  (∀ items v,
     dict_get items "localities" = Some v →
     v = VNone ∨ (∃ b, v = VBool b) ∨ (∃ n, v = VInt n) ∨ (∃ x, v = VFloat x) ∨
     (∃ k x rest, v = VDict ((k, x) :: rest)) ∨ (∃ a s, v = VStr (String a s)) →
     to_state (VDict items) = Returns None).
Proof.
  split.
  - intros items t u v Ht Hu Hv Hshape.
    unfold to_state, to_state_body, _dict_take. cbn [for_each subscript].
    rewrite Ht, Hu, Hv. by destruct Hshape as [->| [->| ->]].
  - intros items v Hv Hshape.
    unfold to_state, to_state_body. cbn [subscript]. rewrite Hv.
    destruct Hshape as [->|[[b ->]|[[n ->]|[[x ->]|[(k & x & rest & ->)|(a & s & ->)]]]]];
      reflexivity.
Qed.

(** X16. What ends [find_all] early: after hits that went through, a
    hit that is a mapping without [_source], or with a record that
    [to_state] accepts but without [_id], raises [KeyError], and a hit
    that is no mapping raises [TypeError]; the entries gathered before
    are not returned. *)
Theorem find_all_raises_on_a_broken_hit :
  (∀ before items after entries,
     find_all before = Returns entries →
     dict_get items "_source" = None →
     find_all (before ++ VDict items :: after) = Raises KeyError) ∧
  (∀ before items source st after entries,
     find_all before = Returns entries →
     dict_get items "_source" = Some source →
     to_state source = Returns (Some st) →
     dict_get items "_id" = None →
     find_all (before ++ VDict items :: after) = Raises KeyError) ∧
  (∀ before v after entries,
     find_all before = Returns entries →
     (∀ items, v ≠ VDict items) →
     find_all (before ++ v :: after) = Raises TypeError).
Proof.
  split; [|split].
  - intros before items after entries Hbefore Hsource.
    rewrite find_all_app, Hbefore. unfold find_all at 1.
    cbn [mbind outcome_bind for_results subscript]. by rewrite Hsource.
  - intros before items source st after entries Hbefore Hsource Hst Hid.
    rewrite find_all_app, Hbefore. unfold find_all at 1.
    cbn [mbind outcome_bind for_results subscript].
    rewrite Hsource. cbn [mbind outcome_bind]. rewrite Hst.
    cbn [mbind outcome_bind]. by rewrite Hid.
  - intros before v after entries Hbefore Hv.
    rewrite find_all_app, Hbefore. unfold find_all at 1.
    cbn [mbind outcome_bind for_results].
    destruct v; try done. by destruct (Hv items).
Qed.

(** ** The journal *)

Lemma wrapper_app {W} (save_object : string → dict field → value → W → outcome unit * W)
    entries1 entries2 esindex w :
  wrapper save_object (entries1 ++ entries2) esindex w =
    match wrapper save_object entries1 esindex w with
    | (Returns _, w1) => wrapper save_object entries2 esindex w1
    | failed => failed
    end.
Proof.
  revert w. induction entries1 as [|entry entries1 IH]; intros w; [done|].
  cbn [app wrapper].
  destruct (save_object esindex (document_of (entry_state entry)) (identifier entry) w)
    as [[[]| |] w']; [apply IH | done..].
Qed.

Lemma wrapper_saves {W} (save_object : string → dict field → value → W → outcome unit * W)
    entries esindex w w' :
  saves save_object esindex entries w w' →
  wrapper save_object entries esindex w = (Returns (), w').
Proof.
  induction 1 as [w|entry entries w w1 w2 Hsave _ IH]; [done|].
  cbn [wrapper]. by rewrite Hsave.
Qed.

(** X17. The journal saves the entries one after the other and stops
    at the first one the client refuses.  If one call of the client for
    each of the entries before, in order, each with the index, the
    entry's document and its identifier, returns and leads from [w] to
    [w1], then so does the journal on these entries; and if the client
    then raises on the next entry, leaving [w2], the journal on the whole
    list raises that error and leaves [w2]: the entries before have been
    saved once each, and for those after the client is not called. *)
Theorem wrap_journal_stops_at_the_first_failure {W}
    (save_object : string → dict field → value → W → outcome unit * W)
    before entry after esindex w w1 e w2 :
  saves save_object esindex before w w1 →
  save_object esindex (document_of (entry_state entry)) (identifier entry) w1 =
    (Raises e, w2) →
  wrap_journal save_object before esindex w = (Returns (), w1) ∧
  wrap_journal save_object (before ++ entry :: after) esindex w = (Raises e, w2).
Proof.
  unfold wrap_journal. intros Hbefore%wrapper_saves Hfail.
  split; [exact Hbefore|].
  rewrite wrapper_app, Hbefore. cbn [wrapper]. by rewrite Hfail.
Qed.

Lemma wrap_journal_stops_at_the_first_failure_witness :
  saves noting_client "localities" [entry_doc (VStr "id-1"); entry_doc VNone] []
    [("localities", VStr "id-1"); ("localities", VNone)] ∧
  noting_client "localities" (document_of (entry_state (entry_doc (VInt 3))))
    (identifier (entry_doc (VInt 3)))
    [("localities", VStr "id-1"); ("localities", VNone)] =
    (Raises TypeError, [("localities", VStr "id-1"); ("localities", VNone)]) ∧
  wrap_journal noting_client [entry_doc (VStr "id-1"); entry_doc VNone] "localities" [] =
    (Returns (), [("localities", VStr "id-1"); ("localities", VNone)]) ∧
  wrap_journal noting_client
    ([entry_doc (VStr "id-1"); entry_doc VNone] ++
     entry_doc (VInt 3) :: [entry_doc (VStr "id-4")]) "localities" [] =
    (Raises TypeError, [("localities", VStr "id-1"); ("localities", VNone)]).
Proof.
  assert (saves noting_client "localities" [entry_doc (VStr "id-1"); entry_doc VNone] []
            [("localities", VStr "id-1"); ("localities", VNone)]) as Hsaves.
  { eapply saves_cons; [reflexivity|]. eapply saves_cons; [reflexivity|].
    apply saves_nil. }
  split; [exact Hsaves|]. split; [reflexivity|].
  exact (wrap_journal_stops_at_the_first_failure noting_client
           [entry_doc (VStr "id-1"); entry_doc VNone] (entry_doc (VInt 3))
           [entry_doc (VStr "id-4")] "localities" [] _ TypeError _ Hsaves eq_refl).
Defined.
